(** * The Electron main-process JSON-RPC transport

    A shallow embedding of
    [packages/core/src/electron-main/messaging/electron-ipc-connection.ts]:
    the reader/writer pair handed to [createMessageConnection], the module
    level [toDispose] collection they share, and the three emitters behind
    [onError], [onClose] and [onPartialMessage].

    The module keeps all of its state in module-level constants and in the
    process-wide [ipcMain] object, so every operation is a function on one
    explicit [World].  What a caller can observe is the [trace]: the calls
    made to function values that were handed to the transport.  A function
    value is taken to return normally and not to call back into the
    transport while it runs; what it does besides is not the module's
    business. *)

From stdpp Require Import base strings list gmap.

(** ** Listener arrays *)

Section ListenerArray.
Context {A : Type} `{!EqDecision A}.

(** Dropping the first instance of [x] from an array. *)
Fixpoint remove_first (x : A) (l : list A) : list A :=
  match l with
  | [] => []
  | y :: l' => if decide (x = y) then l' else y :: remove_first x l'
  end.

(** What [removeListener] does to the listener array of its channel: it
    scans the array from its end and takes out at most one instance of the
    function, the one added last; the other entries keep their order. *)
Definition remove_last (x : A) (l : list A) : list A :=
  reverse (remove_first x (reverse l)).

(** Number of times a function is registered in a listener array. *)
Definition occurrences (x : A) (l : list A) : nat :=
  length (filter (λ y, y = x) l).

End ListenerArray.

(** ** The three auxiliary signals of the reader/writer contract *)

Inductive Signal := SigError | SigClose | SigPartialMessage.

#[global] Instance Signal_eq_dec : EqDecision Signal.
Proof. solve_decision. Defined.

(** Name of the channel used with [ipcMain.on/emit]. *)
Definition ElectronIpcMainChannel : string := "theia-json-rpc".

Section Connection.

(** A [Message] is opaque to the transport, and so is every function value:
    a [DataCallback] given to [listen] and a [Listener] subscribed to one of
    the emitters are only ever stored, compared by identity and called. *)
Context {Message DataCallback Listener Payload : Type}.
Context `{!EqDecision DataCallback, !EqDecision Listener}.

(** What the tracker holds.  [pushAll] puts the three emitters in;
    [listen] adds [Disposable.create(() => ipcMain.removeListener(
    ElectronIpcMainChannel, callback))], a fresh object at each call:
    [Unlisten n callback] is the [n]-th one created. *)
Inductive Disposable :=
  | EmitterDisposable (sig : Signal)
  | Unlisten (n : nat) (callback : DataCallback).

(** Calls that leave the module, in the order they happen: a function
    called by an [emit] on a channel of [ipcMain], a subscriber called by
    the [fire] of an emitter, a tracked disposal action run. *)
Inductive Call :=
  | Delivered (channel : string) (callback : DataCallback) (message : Message)
  | Fired (sig : Signal) (listener : Listener) (payload : Payload)
  | Released (d : Disposable).

(** Modelled from the spec: the [Emitter] class of [common/event] is not
    among the sources.  A Signal Emitter "holds zero or more subscriber
    callbacks", [fire] "invokes every current subscriber synchronously in
    subscription order", and it is torn down with the tracker; the policy
    chosen for a subscription made after the teardown is that it is inert. *)
Record Emitter := {
  subscribers : list Listener;
  torn_down : bool
}.

(** Modelled from the spec: [new Emitter()], with no subscriber yet. *)
Definition new_Emitter : Emitter :=
  {| subscribers := []; torn_down := false |}.

(** Modelled from the spec: [emitter.event(l)], the subscription that
    [onError], [onClose] and [onPartialMessage] expose.  The handle it
    returns is [Emitter_unsubscribe l]. *)
Definition Emitter_event (l : Listener) (e : Emitter) : Emitter :=
  if torn_down e then e
  else {| subscribers := subscribers e ++ [l]; torn_down := false |}.

(** Modelled from the spec: disposing the "unsubscribe handle" of a
    subscription. *)
Definition Emitter_unsubscribe (l : Listener) (e : Emitter) : Emitter :=
  {| subscribers := remove_last l (subscribers e); torn_down := torn_down e |}.

(** Modelled from the spec: [emitter.dispose()], the teardown; it calls
    nobody. *)
Definition Emitter_dispose (e : Emitter) : Emitter :=
  {| subscribers := []; torn_down := true |}.

(** Modelled from the spec: the [DisposableCollection] class of
    [common/disposable] is not among the sources.  The Disposal Tracker is a
    "state machine with two states: Active -> Disposed, one-way"; it "owns a
    set of disposable resources", and "after disposal no further
    registration ... has effect". *)
Record DisposableCollection := {
  disposables : list Disposable;
  disposed : bool
}.

(** Modelled from the spec: [new DisposableCollection()], in state Active. *)
Definition new_DisposableCollection : DisposableCollection :=
  {| disposables := []; disposed := false |}.

(** Modelled from the spec: [DisposableCollection.push], which tracks one
    more resource while the tracker is Active. *)
Definition push (d : Disposable) (c : DisposableCollection)
  : DisposableCollection :=
  if disposed c then c
  else {| disposables := disposables c ++ [d]; disposed := false |}.

(** Modelled from the spec: [DisposableCollection.pushAll], a [push] of
    each element in turn. *)
Definition pushAll (ds : list Disposable) (c : DisposableCollection)
  : DisposableCollection :=
  foldl (λ c d, push d c) c ds.

(** The state of the module and of the process-wide objects it touches. *)
Record World := {
  (** listener arrays of [ipcMain], by channel, in registration order *)
  ipcMain : gmap string (list DataCallback);
  toDispose : DisposableCollection;
  errorEmitter : Emitter;
  closeEmitter : Emitter;
  partialEmitter : Emitter;
  (** how many objects [Disposable.create] has made so far *)
  created : nat;
  trace : list Call
}.

Definition with_ipcMain (r : gmap string (list DataCallback)) (w : World) :=
  {| ipcMain := r; toDispose := toDispose w;
     errorEmitter := errorEmitter w; closeEmitter := closeEmitter w;
     partialEmitter := partialEmitter w;
     created := created w; trace := trace w |}.

Definition with_toDispose (c : DisposableCollection) (w : World) :=
  {| ipcMain := ipcMain w; toDispose := c;
     errorEmitter := errorEmitter w; closeEmitter := closeEmitter w;
     partialEmitter := partialEmitter w;
     created := created w; trace := trace w |}.

Definition with_created (n : nat) (w : World) :=
  {| ipcMain := ipcMain w; toDispose := toDispose w;
     errorEmitter := errorEmitter w; closeEmitter := closeEmitter w;
     partialEmitter := partialEmitter w;
     created := n; trace := trace w |}.

Definition called (cs : list Call) (w : World) :=
  {| ipcMain := ipcMain w; toDispose := toDispose w;
     errorEmitter := errorEmitter w; closeEmitter := closeEmitter w;
     partialEmitter := partialEmitter w;
     created := created w; trace := trace w ++ cs |}.

Definition emitter (sig : Signal) (w : World) : Emitter :=
  match sig with
  | SigError => errorEmitter w
  | SigClose => closeEmitter w
  | SigPartialMessage => partialEmitter w
  end.

Definition with_emitter (sig : Signal) (e : Emitter) (w : World) :=
  {| ipcMain := ipcMain w; toDispose := toDispose w;
     errorEmitter := if decide (sig = SigError) then e else errorEmitter w;
     closeEmitter := if decide (sig = SigClose) then e else closeEmitter w;
     partialEmitter :=
       if decide (sig = SigPartialMessage) then e else partialEmitter w;
     created := created w; trace := trace w |}.

(** *** [ipcMain] *)

(** [ipcMain] belongs to the host runtime, not to the sources; it is the
    spec's Shared Channel Registry, "a process-wide event bus addressed by
    topic name, supporting many independent listeners per topic". *)

(** The listener array of a channel; a channel never used has none. *)
Definition listeners (channel : string) (w : World) : list DataCallback :=
  default [] (ipcMain w !! channel).

(** Modelled from the spec: [ipcMain.on(channel, callback)] "registers
    callback to be invoked with every message subsequently published on
    topic". *)
Definition ipcMain_on (channel : string) (callback : DataCallback)
  (w : World) : World :=
  with_ipcMain (<[channel := listeners channel w ++ [callback]]> (ipcMain w)) w.

(** Modelled from the spec: [ipcMain.removeListener(channel, callback)]
    "removes that exact registration (no-op if absent)". *)
Definition ipcMain_removeListener (channel : string)
  (callback : DataCallback) (w : World) : World :=
  with_ipcMain (alter (remove_last callback) channel (ipcMain w)) w.

(** Modelled from the spec: [ipcMain.emit(channel, message)] "invokes ...
    every currently subscribed callback on topic with message"; of the two
    host semantics the spec allows, this is the synchronous one, in
    registration order: the calls are made before [emit] returns. *)
Definition ipcMain_emit (channel : string) (message : Message)
  (w : World) : World :=
  called ((λ callback, Delivered channel callback message)
            <$> listeners channel w) w.

(** *** The emitters *)

(** Modelled from the spec: [emitter.fire(payload)] "invokes every current
    subscriber synchronously in subscription order".  The module never
    calls it. *)
Definition fire (sig : Signal) (payload : Payload) (w : World) : World :=
  called ((λ l, Fired sig l payload) <$> subscribers (emitter sig w)) w.

(** *** The tracker *)

(** Running one tracked disposal action: the teardown of an emitter, or the
    closure of lines 48-50, [ipcMain.removeListener(ElectronIpcMainChannel,
    callback)]. *)
Definition release (d : Disposable) (w : World) : World :=
  let w := called [Released d] w in
  match d with
  | EmitterDisposable sig => with_emitter sig (Emitter_dispose (emitter sig w)) w
  | Unlisten _ callback =>
      ipcMain_removeListener ElectronIpcMainChannel callback w
  end.

(** Running disposal actions one after the other. *)
Definition release_all (ds : list Disposable) (w : World) : World :=
  foldl (λ w d, release d w) w ds.

(** Modelled from the spec: [DisposableCollection.dispose].  "The single
    transition to Disposed invokes every tracked disposal action exactly
    once"; "repeated disposal calls are no-ops".  The spec leaves the order
    open; the most recent resource is released first here, and
    [release_all_Permutation] shows that the order is immaterial. *)
Definition toDispose_dispose (w : World) : World :=
  if disposed (toDispose w) then w
  else
    release_all (reverse (disposables (toDispose w)))
      (with_toDispose {| disposables := []; disposed := true |} w).

(** ** The connection: lines 41-67 *)

(** [listen(callback)] of the reader. *)
Definition listen (callback : DataCallback) (w : World) : World :=
  if negb (disposed (toDispose w)) then
    let w := ipcMain_on ElectronIpcMainChannel callback w in
    with_created (S (created w))
      (with_toDispose (push (Unlisten (created w) callback) (toDispose w)) w)
  else w.

(** [write(message)] of the writer. *)
Definition write (message : Message) (w : World) : World :=
  if negb (disposed (toDispose w)) then
    ipcMain_emit ElectronIpcMainChannel message w
  else w.

(** The two capability bundles, as the object literals give them. *)
Record MessageReader := {
  reader_onError : Listener → World → World;
  reader_onClose : Listener → World → World;
  reader_onPartialMessage : Listener → World → World;
  reader_listen : DataCallback → World → World;
  reader_dispose : World → World
}.

Record MessageWriter := {
  writer_onClose : Listener → World → World;
  writer_onError : Listener → World → World;
  writer_write : Message → World → World;
  writer_dispose : World → World
}.

(** [errorEmitter.event], [closeEmitter.event] and [partialEmitter.event],
    as the object literals expose them, and the handle each call returns. *)
Definition subscribe (sig : Signal) (l : Listener) (w : World) : World :=
  with_emitter sig (Emitter_event l (emitter sig w)) w.

Definition unsubscribe (sig : Signal) (l : Listener) (w : World) : World :=
  with_emitter sig (Emitter_unsubscribe l (emitter sig w)) w.

Definition reader : MessageReader :=
  {| reader_onError := subscribe SigError;
     reader_onClose := subscribe SigClose;
     reader_onPartialMessage := subscribe SigPartialMessage;
     reader_listen := listen;
     reader_dispose := toDispose_dispose |}.

Definition writer : MessageWriter :=
  {| writer_onClose := subscribe SigClose;
     writer_onError := subscribe SigError;
     writer_write := write;
     writer_dispose := toDispose_dispose |}.

(** [createMessageConnection] belongs to [vscode-jsonrpc]; the module's
    part in the exported connection is the pair it is given. *)
Definition ElectronIpcMainConnection : MessageReader * MessageWriter :=
  (reader, writer).

(** The module right after it has been loaded: lines 24-31. *)
Definition init : World :=
  {| ipcMain := ∅;
     toDispose :=
       pushAll [EmitterDisposable SigError; EmitterDisposable SigClose;
                EmitterDisposable SigPartialMessage]
         new_DisposableCollection;
     errorEmitter := new_Emitter;
     closeEmitter := new_Emitter;
     partialEmitter := new_Emitter;
     created := 0;
     trace := [] |}.

(** ** Histories *)

(** What the rest of the process can do: call the reader and the writer,
    subscribe to and unsubscribe from their signals, and publish on any
    channel of [ipcMain] itself. *)
Inductive Op :=
  | Listen (callback : DataCallback)
  | Write (message : Message)
  | ReaderDispose
  | WriterDispose
  | Subscribe (sig : Signal) (l : Listener)
  | Unsubscribe (sig : Signal) (l : Listener)
  | Publish (channel : string) (message : Message).

Definition step (o : Op) (w : World) : World :=
  match o with
  | Listen callback => reader_listen reader callback w
  | Write message => writer_write writer message w
  | ReaderDispose => reader_dispose reader w
  | WriterDispose => writer_dispose writer w
  | Subscribe sig l => subscribe sig l w
  | Unsubscribe sig l => unsubscribe sig l w
  | Publish channel message => ipcMain_emit channel message w
  end.

Definition run (ops : list Op) (w : World) : World :=
  foldl (λ w o, step o w) w ops.

(** An operation that leaves a registration of [callback] alone: neither a
    disposal nor a further [listen] of the same function. *)
Definition leaves_registered (callback : DataCallback) (o : Op) : Prop :=
  match o with
  | ReaderDispose | WriterDispose => False
  | Listen c => c ≠ callback
  | _ => True
  end.

(** ** Reading a trace *)

(** The messages a function was called with by the publishes on a channel,
    oldest first. *)
Definition observed (channel : string) (callback : DataCallback)
  (t : list Call) : list Message :=
  omap (λ c, match c with
             | Delivered ch cb m =>
                 if decide (ch = channel ∧ cb = callback) then Some m else None
             | _ => None
             end) t.

(** The calls made to subscribers of the three signals. *)
Definition fired (t : list Call) : list (Signal * Listener * Payload) :=
  omap (λ c, match c with
             | Fired sig l p => Some (sig, l, p)
             | _ => None
             end) t.

(** The disposal actions that have run. *)
Definition released (t : list Call) : list Disposable :=
  omap (λ c, match c with Released d => Some d | _ => None end) t.

(** The functions whose removal the tracker holds, oldest first. *)
Definition unlisten_callbacks (ds : list Disposable) : list DataCallback :=
  omap (λ d, match d with
             | Unlisten _ callback => Some callback
             | EmitterDisposable _ => None
             end) ds.

(** The listener array of the module's channel is [foreign], put there by
    other parties, followed by the registrations of [listen], each of
    which has its removal in the tracker; a disposed tracker holds nothing. *)
Definition owns_registrations (foreign : list DataCallback) (w : World)
  : Prop :=
  listeners ElectronIpcMainChannel w
  = foreign ++ unlisten_callbacks (disposables (toDispose w))
  ∧ (disposed (toDispose w) = true → disposables (toDispose w) = []).

(** Two worlds that hold the same resources: the same listener arrays, the
    same emitters and the same tracker. They may differ in their traces. *)
Definition same_resources (w w' : World) : Prop :=
  (∀ channel, listeners channel w = listeners channel w')
  ∧ (∀ sig, emitter sig w = emitter sig w')
  ∧ toDispose w = toDispose w'
  ∧ created w = created w'.

(** The disposal actions that have run, then those still tracked. *)
Definition released_or_tracked (w : World) : list Disposable :=
  released (trace w) ++ disposables (toDispose w).

(** Each disposal action is an object of its own: no action is both run and
    still tracked, or tracked twice, or run twice, and [created] is above
    the index of every [Unlisten] made so far. *)
Definition actions_distinct (w : World) : Prop :=
  NoDup (released_or_tracked w)
  ∧ ∀ n callback, Unlisten n callback ∈ released_or_tracked w → n < created w.

End Connection.

(** An operation that publishes on [channel] from outside the transport. *)
Definition publishes_on {Message DataCallback Listener : Type}
  (channel : string) (o : @Op Message DataCallback Listener) : Prop :=
  match o with
  | Publish c _ => c = channel
  | _ => False
  end.

(** ** A concrete process *)

(** JSON-RPC messages as far as the scenarios need them, and three function
    values of the host process. *)
Record RpcMessage := { rpc_id : nat; rpc_method : string }.

Definition ping : RpcMessage := {| rpc_id := 1; rpc_method := "ping" |}.
Definition pong : RpcMessage := {| rpc_id := 2; rpc_method := "pong" |}.

Inductive Handler := handlerA | handlerB | handlerC.

#[global] Instance Handler_eq_dec : EqDecision Handler.
Proof. solve_decision. Defined.

(** The module as loaded in that process. *)
Definition loaded : @World RpcMessage Handler Handler string := init.

(** The same, in a process where another party has put [handlerC] on the
    module's channel and on a channel of its own. *)
Definition shared : @World RpcMessage Handler Handler string :=
  ipcMain_on "other" handlerC (ipcMain_on ElectronIpcMainChannel handlerC init).

(** * The task schema updater

    The second text of the source file (lines 83-316): the
    [TaskSchemaUpdater] class and the schema literals it assembles. *)

(** ** JSON values *)

(** The values the schema literals are made of.  Numbers are integers here;
    the literals of the module contain none. *)
#[local] Set Warnings "-register-all".
Inductive json :=
  | JNull
  | JBoolean (b : bool)
  | JNumber (n : Z)
  | JString (s : string)
  | JArray (items : list json)
  | JObject (members : list (string * json)).

(** One step into a value: [o.key] or [a[i]]. *)
Inductive Access :=
  | Key (key : string)
  | Index (i : nat).

(** The own property [key] of an object, [None] when it has none
    ([undefined]). *)
Fixpoint member (key : string) (ms : list (string * json)) : option json :=
  match ms with
  | [] => None
  | (k, v) :: ms' => if decide (k = key) then Some v else member key ms'
  end.

(** [o.key = v]: an existing property keeps its place, a new one goes last. *)
Fixpoint set_member (key : string) (v : json) (ms : list (string * json))
  : list (string * json) :=
  match ms with
  | [] => [(key, v)]
  | (k, x) :: ms' =>
      if decide (k = key) then (k, v) :: ms' else (k, x) :: set_member key v ms'
  end.

(** Reading one step; [None] is [undefined]. *)
Definition get (a : Access) (v : json) : option json :=
  match a, v with
  | Key k, JObject ms => member k ms
  | Index i, JArray xs => xs !! i
  | _, _ => None
  end.

(** Writing one step, in place; [None] is the [TypeError] of a write
    through something that is not an object (an array, for an index). *)
Definition put (a : Access) (c : json) (v : json) : option json :=
  match a, v with
  | Key k, JObject ms => Some (JObject (set_member k c ms))
  | Index i, JArray xs => Some (JArray (<[i := c]> xs))
  | _, _ => None
  end.

(** [v.a1.a2...]; [None] when a step meets [undefined]. *)
Fixpoint path_get (p : list Access) (v : json) : option json :=
  match p with
  | [] => Some v
  | a :: p' => get a v ≫= path_get p'
  end.

(** The value [v] after the object reached by [p] has been changed by [f];
    [None] when a step of [p] meets [undefined] (a [TypeError]) or [f]
    fails. *)
Fixpoint path_modify (p : list Access) (f : json → option json) (v : json)
  : option json :=
  match p with
  | [] => f v
  | a :: p' =>
      child ← get a v; child' ← path_modify p' f child; put a child' v
  end.

(** [o.key = x] as a change of [o]. *)
Definition assign (key : string) (x : json) (o : json) : option json :=
  put (Key key) x o.

(** A [string[]] as a value. *)
Definition strings (xs : list string) : json := JArray (JString <$> xs).

(** ** The schema literals: lines 92 and 155-316 *)

Definition taskSchemaId : string := "vscode://schemas/tasks".

(** The two characters of the literals that a string here cannot show. *)
Definition line_feed : string := String (Ascii.ascii_of_nat 10) EmptyString.
Definition double_quote : string := String (Ascii.ascii_of_nat 34) EmptyString.

Definition commandSchema : json :=
  JObject [
    ("type", JString "string");
    ("description", JString "The actual command or script to execute")
  ].

Definition commandArgSchema : json :=
  JObject [
    ("type", JString "array");
    ("description",
      JString "A list of strings, each one being one argument to pass to the command");
    ("items", JObject [("type", JString "string")])
  ].

Definition commandOptionsSchema : json :=
  JObject [
    ("type", JString "object");
    ("description",
      JString "The command options used when the command is executed");
    ("properties", JObject [
      ("cwd", JObject [
        ("type", JString "string");
        ("description",
          JString "The directory in which the command will be executed");
        ("default", JString "${workspaceFolder}")
      ]);
      ("env", JObject [
        ("type", JString "object");
        ("description",
          JString "The environment of the executed program or shell. If omitted the parent process' environment is used")
      ]);
      ("shell", JObject [
        ("type", JString "object");
        ("description",
          JString "Configuration of the shell when task type is `shell`");
        ("properties", JObject [
          ("executable", JObject [
            ("type", JString "string");
            ("description", JString "The shell to use")
          ]);
          ("args", JObject [
            ("type", JString "array");
            ("description",
              JString
                ("The arguments to be passed to the shell executable to run in command mode"
                 +:+ line_feed
                 +:+ "                        (e.g ['-c'] for bash or ['/S', '/C'] for cmd.exe)"));
            ("items", JObject [("type", JString "string")])
          ])
        ])
      ])
    ])
  ].

(** The [description] of [group], whose text has double quotes in it. *)
Definition group_description : string :=
  "Defines to which execution group this task belongs to. It supports "
  +:+ double_quote +:+ "build" +:+ double_quote
  +:+ " to add it to the build group and "
  +:+ double_quote +:+ "test" +:+ double_quote
  +:+ " to add it to the test group.".

(** [taskConfigurationSchema] holds the array [problemMatcherNames] in two
    places, by reference; the array is the only part of it the module ever
    changes, so the schema is a function of what the array holds. *)
Definition taskConfigurationSchema (problemMatcherNames : list string)
  : json :=
  JObject [
    ("$id", JString taskSchemaId);
    ("oneOf", JArray [
      JObject [
        ("allOf", JArray [
          JObject [
            ("type", JString "object");
            ("required", JArray [JString "type"]);
            ("properties", JObject [
              ("label", JObject [
                ("type", JString "string");
                ("description",
                  JString "A unique string that identifies the task that is also used as task's user interface label")
              ]);
              ("type", JObject [
                ("type", JString "string");
                ("enum", JArray [JString "shell"; JString "process"]);
                ("default", JString "shell");
                ("description",
                  JString "Determines what type of process will be used to execute the task. Only shell types will have output shown on the user interface")
              ]);
              ("command", commandSchema);
              ("args", commandArgSchema);
              ("group", JObject [
                ("oneOf", JArray [
                  JObject [("type", JString "string")];
                  JObject [
                    ("type", JString "object");
                    ("properties", JObject [
                      ("kind", JObject [
                        ("type", JString "string");
                        ("default", JString "none");
                        ("description", JString "The task's execution group.")
                      ]);
                      ("isDefault", JObject [
                        ("type", JString "boolean");
                        ("default", JBoolean false);
                        ("description",
                          JString "Defines if this task is the default task in the group.")
                      ])
                    ])
                  ]
                ]);
                ("enum", JArray [
                  JObject [("kind", JString "build"); ("isDefault", JBoolean true)];
                  JObject [("kind", JString "test"); ("isDefault", JBoolean true)];
                  JString "build";
                  JString "test";
                  JString "none"
                ]);
                ("enumDescriptions", JArray [
                  JString "Marks the task as the default build task.";
                  JString "Marks the task as the default test task.";
                  JString "Marks the task as a build task accessible through the 'Run Build Task' command.";
                  JString "Marks the task as a test task accessible through the 'Run Test Task' command.";
                  JString "Assigns the task to no group"
                ]);
                ("description", JString group_description)
              ]);
              ("options", commandOptionsSchema);
              ("windows", JObject [
                ("type", JString "object");
                ("description",
                  JString "Windows specific command configuration that overrides the command, args, and options");
                ("properties", JObject [
                  ("command", commandSchema);
                  ("args", commandArgSchema);
                  ("options", commandOptionsSchema)
                ])
              ]);
              ("osx", JObject [
                ("type", JString "object");
                ("description",
                  JString "MacOS specific command configuration that overrides the command, args, and options");
                ("properties", JObject [
                  ("command", commandSchema);
                  ("args", commandArgSchema);
                  ("options", commandOptionsSchema)
                ])
              ]);
              ("linux", JObject [
                ("type", JString "object");
                ("description",
                  JString "Linux specific command configuration that overrides the default command, args, and options");
                ("properties", JObject [
                  ("command", commandSchema);
                  ("args", commandArgSchema);
                  ("options", commandOptionsSchema)
                ])
              ]);
              ("problemMatcher", JObject [
                ("oneOf", JArray [
                  JObject [
                    ("type", JString "string");
                    ("description",
                      JString "Name of the problem matcher to parse the output of the task");
                    ("enum", strings problemMatcherNames)
                  ];
                  JObject [
                    ("type", JString "object");
                    ("description",
                      JString "User defined problem matcher(s) to parse the output of the task")
                  ];
                  JObject [
                    ("type", JString "array");
                    ("description",
                      JString "Name(s) of the problem matcher(s) to parse the output of the task");
                    ("items", JObject [
                      ("type", JString "string");
                      ("enum", strings problemMatcherNames)
                    ])
                  ]
                ])
              ])
            ])
          ]
        ])
      ]
    ])
  ].

(** Where the schema keeps the task types and the matcher names, seen from
    the object [getTaskSchema] builds. *)
Definition type_path : list Access :=
  [Key "properties"; Key "tasks"; Key "items"; Key "oneOf"; Index 0;
   Key "allOf"; Index 0; Key "properties"; Key "type"].

Definition problemMatcher_path : list Access :=
  [Key "properties"; Key "tasks"; Key "items"; Key "oneOf"; Index 0;
   Key "allOf"; Index 0; Key "properties"; Key "problemMatcher"].

(** ** The class: lines 94-153 *)

(** The name a matcher goes by in the schema, line 148:
    [m.name.startsWith('$') ? m.name : `$${m.name}`]. *)
Definition matcherName (name : string) : string :=
  if String.prefix "$" name then name else "$" +:+ name.

(** What the schema store is told, lines 122-125. *)
Record JsonSchemaConfiguration := {
  fileMatch : list string;
  url : string
}.

(** How [updateProblemMatcherNames] ends, and what the module-level array
    [problemMatcherNames] holds then: it returns, having called [update()],
    or it throws a [RangeError] before that call. *)
Inductive Completion :=
  | Returned (problemMatcherNames : list string)
  | RangeError (problemMatcherNames : list string).

Section TaskSchemaUpdater.

(** The collaborators the class is given, none of them in the sources: a
    matcher is known by its [name]; [URI], [InMemoryResources] (whose
    [update] and [add] may throw, [None]) and [JSON.stringify] are the
    platform's; [inputs] is [inputsSchema.definitions.inputs].  The engine
    takes at most [argument_limit] arguments in one call: a spread of more
    elements into a call throws a [RangeError]. *)
Context {ProblemMatcher URI Resources : Type}.
Variable name : ProblemMatcher → string.
Variable argument_limit : nat.
Variable new_URI : string → URI.
Variable URI_toString : URI → string.
Variable resources_update : URI → string → Resources → option Resources.
Variable resources_add : URI → string → Resources → option Resources.
Variable JSON_stringify : json → string.
Variable inputs : json.

(** [updateProblemMatcherNames], lines 148-151, given the matchers
    [problemMatcherRegistry.getAll()] returned.  Line 149 empties the
    array; line 150 passes every name as an argument of one [push], which
    throws when there are too many of them, the array left empty and
    [update()] not called. *)
Definition updateProblemMatcherNames (registry : list ProblemMatcher)
  (problemMatcherNames : list string) : Completion :=
  let matcherNames := (λ m, matcherName (name m)) <$> registry in
  let problemMatcherNames := take 0 problemMatcherNames in
  if decide (length matcherNames ≤ argument_limit)
  then Returned (problemMatcherNames ++ matcherNames)
  else RangeError problemMatcherNames.

(** The object literal of lines 130-140.  [deepClone] and the spread copy
    a value and leave it equal. *)
Definition taskSchema_literal (problemMatcherNames : list string) : json :=
  JObject [
    ("properties", JObject [
      ("tasks", JObject [
        ("type", JString "array");
        ("items", taskConfigurationSchema problemMatcherNames)
      ]);
      ("inputs", inputs)
    ])
  ].

(** The local [taskSchema] of [getTaskSchema] after line 142, for the task
    types that [getRegisteredTaskTypes] resolved to. *)
Definition taskSchema (problemMatcherNames taskTypes : list string)
  : option json :=
  path_modify type_path (assign "enum" (strings taskTypes))
    (taskSchema_literal problemMatcherNames).

(** [getTaskSchema], lines 129-144; [None] is a rejected promise. *)
Definition getTaskSchema (problemMatcherNames taskTypes : list string)
  : option string :=
  JSON_stringify <$> taskSchema problemMatcherNames taskTypes.

(** What [update] looks after: the resources, and what the schema store has
    been told so far. *)
Record Stores := {
  inmemoryResources : Resources;
  jsonSchemaStore : list JsonSchemaConfiguration
}.

(** The statements of [update] that follow its [await], lines 116-126; they
    run without interruption.  A call that throws leaves no trace of its
    own in the resources, and [registerSchema] is taken to return. *)
Definition update_commit (schemaContent : string) (st : Stores)
  : option Stores :=
  let taskSchemaUri := new_URI taskSchemaId in
  match resources_update taskSchemaUri schemaContent (inmemoryResources st) with
  | Some r =>
      Some {| inmemoryResources := r; jsonSchemaStore := jsonSchemaStore st |}
  | None =>
      r ← resources_add taskSchemaUri schemaContent (inmemoryResources st);
      Some {| inmemoryResources := r;
              jsonSchemaStore :=
                jsonSchemaStore st
                ++ [{| fileMatch := ["tasks.json"];
                       url := URI_toString taskSchemaUri |}] |}
  end.

(** What [update] tells the schema store when it does. *)
Definition registration : JsonSchemaConfiguration :=
  {| fileMatch := ["tasks.json"]; url := URI_toString (new_URI taskSchemaId) |}.

(** [update], lines 115-127, for the matcher names in the array when it
    was called and the task types its [await] resolved to. *)
Definition update (problemMatcherNames taskTypes : list string) (st : Stores)
  : option Stores :=
  schemaContent ← getTaskSchema problemMatcherNames taskTypes;
  update_commit schemaContent st.

(** Updates completing one after the other. *)
Definition updates (runs : list (list string * list string)) (st : Stores)
  : option Stores :=
  foldl (λ ost run, ost ≫= update run.1 run.2) (Some st) runs.

End TaskSchemaUpdater.

(** ** A concrete updater *)

(** A resource store to run the updater on: contents by URI, an [update]
    that fails on a missing resource and an [add] that fails on one that
    is there. *)
Definition map_update (uri content : string) (r : gmap string string)
  : option (gmap string string) :=
  match r !! uri with
  | Some _ => Some (<[uri := content]> r)
  | None => None
  end.

Definition map_add (uri content : string) (r : gmap string string)
  : option (gmap string string) :=
  match r !! uri with
  | Some _ => None
  | None => Some (<[uri := content]> r)
  end.

(** Two matchers of a registry, known by their names. *)
Definition gcc_and_tsc : list string := ["gcc"; "$tsc"].

(** * Facts *)

(** ** Listener arrays *)

Section ListenerArrayFacts.
Context {A : Type} `{!EqDecision A}.
Implicit Types (x y : A) (l k : list A).

Lemma remove_first_absent x l : x ∉ l → remove_first x l = l.
Proof.
  induction l as [|y l IH]; simpl; [done|].
  intros [Hne Hl]%not_elem_of_cons.
  destruct (decide (x = y)); [done|]. by rewrite IH.
Qed.

Lemma remove_first_subseteq x l : remove_first x l ⊆ l.
Proof.
  intros z. induction l as [|y l IH]; simpl; [done|].
  destruct (decide (x = y)) as [_|_]; [intros Hz; apply elem_of_cons; by right|].
  rewrite !elem_of_cons. intros [->|Hz]; [by left|right; by apply IH].
Qed.

Lemma remove_first_comm x y l :
  remove_first x (remove_first y l) = remove_first y (remove_first x l).
Proof.
  induction l as [|z l IH]; simpl; [done|].
  destruct (decide (y = z)) as [Hy|Hy], (decide (x = z)) as [Hx|Hx];
    simpl; subst.
  - done.
  - by rewrite decide_True.
  - by rewrite decide_True.
  - rewrite !decide_False by done. by rewrite IH.
Qed.

Lemma remove_last_nil x : remove_last x [] = [].
Proof. done. Qed.

Lemma remove_last_snoc x l : remove_last x (l ++ [x]) = l.
Proof.
  unfold remove_last. rewrite reverse_snoc. simpl.
  rewrite decide_True by done. apply reverse_involutive.
Qed.

Lemma remove_last_absent x l : x ∉ l → remove_last x l = l.
Proof.
  intros Hx. unfold remove_last.
  rewrite remove_first_absent; [apply reverse_involutive|].
  by rewrite elem_of_reverse.
Qed.

Lemma remove_last_subseteq x l : remove_last x l ⊆ l.
Proof.
  intros y. unfold remove_last. rewrite elem_of_reverse.
  intros Hy. apply remove_first_subseteq in Hy. by rewrite elem_of_reverse in Hy.
Qed.

Lemma remove_last_comm x y l :
  remove_last x (remove_last y l) = remove_last y (remove_last x l).
Proof.
  unfold remove_last. rewrite !reverse_involutive.
  by rewrite remove_first_comm.
Qed.

Lemma occurrences_app x l k :
  occurrences x (l ++ k) = occurrences x l + occurrences x k.
Proof. unfold occurrences. by rewrite filter_app, length_app. Qed.

Lemma occurrences_absent x l : x ∉ l → occurrences x l = 0.
Proof.
  intros Hx. unfold occurrences.
  induction l as [|y l IH]; [done|].
  apply not_elem_of_cons in Hx as [Hne Hl].
  rewrite filter_cons_False by congruence. by apply IH.
Qed.

End ListenerArrayFacts.

(** ** The registry, the tracker and the connection *)

Section ConnectionFacts.
Context {Message DataCallback Listener Payload : Type}.
Context `{!EqDecision DataCallback, !EqDecision Listener}.

#[local] Abbreviation World := (@World Message DataCallback Listener Payload).
#[local] Abbreviation Op := (@Op Message DataCallback Listener).
#[local] Abbreviation Call := (@Call Message DataCallback Listener Payload).
#[local] Abbreviation Disposable := (@Disposable DataCallback).

Implicit Types (w s : World) (o : Op) (ops : list Op) (d : Disposable).
Implicit Types (callback cb : DataCallback) (m : Message) (ms : list Message).
Implicit Types (channel : string) (t : list Call).

(** *** [ipcMain] *)

Lemma listeners_on channel callback w :
  listeners channel (ipcMain_on channel callback w)
  = listeners channel w ++ [callback].
Proof. unfold listeners at 1. simpl. by rewrite lookup_insert_eq. Qed.

Lemma listeners_on_ne channel channel' callback w :
  channel ≠ channel' →
  listeners channel' (ipcMain_on channel callback w) = listeners channel' w.
Proof. intros Hne. unfold listeners. simpl. by rewrite lookup_insert_ne. Qed.

Lemma listeners_removeListener channel callback w :
  listeners channel (ipcMain_removeListener channel callback w)
  = remove_last callback (listeners channel w).
Proof.
  unfold listeners. simpl. rewrite lookup_alter_eq.
  by destruct (ipcMain w !! channel).
Qed.

Lemma listeners_removeListener_ne channel channel' callback w :
  channel ≠ channel' →
  listeners channel' (ipcMain_removeListener channel callback w)
  = listeners channel' w.
Proof. intros Hne. unfold listeners. simpl. by rewrite lookup_alter_ne. Qed.

Lemma trace_emit channel m w :
  trace (ipcMain_emit channel m w)
  = trace w ++ ((λ callback, Delivered channel callback m)
                  <$> listeners channel w).
Proof. done. Qed.

(** *** Reading a trace *)

Lemma observed_app channel cb t t' :
  observed channel cb (t ++ t')
  = observed channel cb t ++ observed channel cb t'.
Proof. apply omap_app. Qed.

Lemma fired_app t t' : fired (t ++ t') = fired t ++ fired t'.
Proof. apply omap_app. Qed.

Lemma released_app t t' : released (t ++ t') = released t ++ released t'.
Proof. apply omap_app. Qed.

(** One [emit] calls a function once per instance in the listener array. *)
Lemma observed_deliveries channel cb m (l : list DataCallback) :
  observed channel cb
    ((λ callback, Delivered (Listener := Listener) (Payload := Payload)
        channel callback m) <$> l)
  = replicate (occurrences cb l) m.
Proof.
  unfold observed, occurrences.
  induction l as [|c l IH]; [done|].
  rewrite fmap_cons. simpl.
  destruct (decide (c = cb)) as [->|Hne].
  - rewrite filter_cons_True by done.
    rewrite decide_True by done. simpl. f_equal. exact IH.
  - rewrite filter_cons_False by done.
    rewrite decide_False by (intros [_ ?]; done). exact IH.
Qed.

(** A publish on one channel calls nobody on behalf of another channel. *)
Lemma observed_deliveries_ne channel channel' cb m (l : list DataCallback) :
  channel ≠ channel' →
  observed channel' cb
    ((λ callback, Delivered (Listener := Listener) (Payload := Payload)
        channel callback m) <$> l) = [].
Proof.
  intros Hne. unfold observed.
  induction l as [|c l IH]; [done|].
  rewrite fmap_cons. simpl.
  rewrite decide_False by (intros [? _]; done). exact IH.
Qed.

Lemma fired_deliveries channel m (l : list DataCallback) :
  fired ((λ callback, Delivered (Listener := Listener) (Payload := Payload)
            channel callback m) <$> l) = [].
Proof. unfold fired. by induction l. Qed.

Lemma released_deliveries channel m (l : list DataCallback) :
  released ((λ callback, Delivered (Listener := Listener)
               (Payload := Payload) channel callback m) <$> l) = [].
Proof. unfold released. by induction l. Qed.

Lemma observed_Released channel cb (ds : list Disposable) :
  observed channel cb (Released (Message := Message) (Listener := Listener)
                 (Payload := Payload) <$> ds) = [].
Proof. unfold observed. by induction ds. Qed.

Lemma fired_Released (ds : list Disposable) :
  fired (Released (Message := Message) (Listener := Listener)
           (Payload := Payload) <$> ds) = [].
Proof. unfold fired. by induction ds. Qed.

Lemma released_Released (ds : list Disposable) :
  released (Released (Message := Message) (Listener := Listener)
              (Payload := Payload) <$> ds) = ds.
Proof. unfold released. induction ds; simpl; [done|]. by f_equal. Qed.

(** *** The tracker *)

Lemma toDispose_release d w : toDispose (release d w) = toDispose w.
Proof. by destruct d. Qed.

Lemma created_release d w : created (release d w) = created w.
Proof. by destruct d. Qed.

Lemma trace_release d w : trace (release d w) = trace w ++ [Released d].
Proof. by destruct d. Qed.

(** Only an [Unlisten] touches [ipcMain], and only on the module's channel. *)
Lemma listeners_release channel d w :
  listeners channel (release d w)
  = match d with
    | Unlisten _ callback =>
        if decide (channel = ElectronIpcMainChannel)
        then remove_last callback (listeners channel w)
        else listeners channel w
    | EmitterDisposable _ => listeners channel w
    end.
Proof.
  destruct d as [sig|n callback]; [done|].
  unfold release. destruct (decide (channel = ElectronIpcMainChannel)) as [->|Hne].
  - by rewrite listeners_removeListener.
  - by rewrite listeners_removeListener_ne.
Qed.

Lemma release_all_cons d ds w :
  release_all (d :: ds) w = release_all ds (release d w).
Proof. done. Qed.

Lemma toDispose_release_all ds w :
  toDispose (release_all ds w) = toDispose w.
Proof.
  revert w. induction ds as [|d ds IH]; intros w; [done|].
  simpl. by rewrite IH, toDispose_release.
Qed.

Lemma created_release_all ds w : created (release_all ds w) = created w.
Proof.
  revert w. induction ds as [|d ds IH]; intros w; [done|].
  simpl. by rewrite IH, created_release.
Qed.

Lemma trace_release_all ds w :
  trace (release_all ds w) = trace w ++ (Released <$> ds).
Proof.
  revert w. induction ds as [|d ds IH]; intros w; simpl.
  - by rewrite app_nil_r.
  - by rewrite IH, trace_release, <- app_assoc.
Qed.

(** The listener arrays after a run of disposal actions depend on the
    arrays before it and on nothing else. *)
Lemma listeners_release_all_ext ds w w' :
  (∀ channel, listeners channel w = listeners channel w') →
  ∀ channel,
    listeners channel (release_all ds w)
    = listeners channel (release_all ds w').
Proof.
  revert w w'. induction ds as [|d ds IH]; intros w w' Hww'; [done|].
  simpl. apply IH. intros channel.
  rewrite !listeners_release. destruct d; by rewrite Hww'.
Qed.

(** Disposal only ever removes listeners. *)
Lemma listeners_release_all_subseteq channel ds w :
  listeners channel (release_all ds w) ⊆ listeners channel w.
Proof.
  revert w. induction ds as [|d ds IH]; intros w; [done|].
  simpl. etrans; [apply IH|].
  rewrite listeners_release. destruct d as [sig|n callback]; [done|].
  case_decide; [apply remove_last_subseteq|done].
Qed.

Lemma listeners_release_all_ne channel ds w :
  channel ≠ ElectronIpcMainChannel →
  listeners channel (release_all ds w) = listeners channel w.
Proof.
  intros Hne. revert w. induction ds as [|d ds IH]; intros w; [done|].
  simpl. rewrite IH, listeners_release.
  destruct d; [done|]. by rewrite decide_False.
Qed.

(** *** [dispose] *)

Lemma dispose_disposed w :
  disposed (toDispose w) = true → toDispose_dispose w = w.
Proof. intros Hw. unfold toDispose_dispose. by rewrite Hw. Qed.

Lemma disposed_dispose w : disposed (toDispose (toDispose_dispose w)) = true.
Proof.
  unfold toDispose_dispose.
  destruct (disposed (toDispose w)) eqn:Hw; [done|].
  by rewrite toDispose_release_all.
Qed.

Lemma trace_dispose w :
  disposed (toDispose w) = false →
  trace (toDispose_dispose w)
  = trace w ++ (Released <$> reverse (disposables (toDispose w))).
Proof.
  intros Hw. unfold toDispose_dispose.
  by rewrite Hw, trace_release_all.
Qed.

Lemma listeners_dispose_subseteq channel w :
  listeners channel (toDispose_dispose w) ⊆ listeners channel w.
Proof.
  unfold toDispose_dispose. destruct (disposed (toDispose w)); [done|].
  etrans; [apply listeners_release_all_subseteq|done].
Qed.

(** *** [listen] and [write] *)

Lemma listen_disposed cb w :
  disposed (toDispose w) = true → listen cb w = w.
Proof. intros Hw. unfold listen. by rewrite Hw. Qed.

Lemma write_disposed m w :
  disposed (toDispose w) = true → write m w = w.
Proof. intros Hw. unfold write. by rewrite Hw. Qed.

Lemma write_active m w :
  disposed (toDispose w) = false →
  write m w = ipcMain_emit ElectronIpcMainChannel m w.
Proof. intros Hw. unfold write. by rewrite Hw. Qed.

Lemma listeners_listen cb w :
  disposed (toDispose w) = false →
  listeners ElectronIpcMainChannel (listen cb w)
  = listeners ElectronIpcMainChannel w ++ [cb].
Proof.
  intros Hw. unfold listen. rewrite Hw. simpl.
  apply (listeners_on ElectronIpcMainChannel cb w).
Qed.

Lemma listeners_listen_ne channel cb w :
  channel ≠ ElectronIpcMainChannel →
  listeners channel (listen cb w) = listeners channel w.
Proof.
  intros Hne. unfold listen. destruct (disposed (toDispose w)); [done|].
  simpl. by apply (listeners_on_ne ElectronIpcMainChannel channel cb w).
Qed.

Lemma toDispose_listen cb w :
  disposed (toDispose w) = false →
  toDispose (listen cb w)
  = {| disposables := disposables (toDispose w) ++ [Unlisten (created w) cb];
       disposed := false |}.
Proof. intros Hw. unfold listen, push. rewrite Hw. simpl. by rewrite Hw. Qed.

Lemma trace_listen cb w : trace (listen cb w) = trace w.
Proof. unfold listen. by destruct (disposed (toDispose w)). Qed.

(** *** Histories *)

Lemma run_app ops ops' w : run (ops ++ ops') w = run ops' (run ops w).
Proof. apply foldl_app. Qed.

Lemma run_cons o ops w : run (o :: ops) w = run ops (step o w).
Proof. done. Qed.

(** [Disposed] is a final state of the tracker: no operation leaves it. *)
Lemma disposed_step o w :
  disposed (toDispose w) = true → disposed (toDispose (step o w)) = true.
Proof.
  intros Hw. destruct o; simpl.
  - by rewrite listen_disposed.
  - by rewrite write_disposed.
  - apply disposed_dispose.
  - apply disposed_dispose.
  - done.
  - done.
  - done.
Qed.

Lemma disposed_run ops w :
  disposed (toDispose w) = true → disposed (toDispose (run ops w)) = true.
Proof.
  revert w. induction ops as [|o ops IH]; intros w Hw; [done|].
  rewrite run_cons. by apply IH, disposed_step.
Qed.

(** Once the tracker is disposed the listener arrays are frozen. *)
Lemma listeners_step_disposed channel o w :
  disposed (toDispose w) = true →
  listeners channel (step o w) = listeners channel w.
Proof.
  intros Hw. destruct o; simpl.
  - by rewrite listen_disposed.
  - by rewrite write_disposed.
  - by rewrite dispose_disposed.
  - by rewrite dispose_disposed.
  - done.
  - done.
  - done.
Qed.

Lemma listeners_run_disposed channel ops w :
  disposed (toDispose w) = true →
  listeners channel (run ops w) = listeners channel w.
Proof.
  revert w. induction ops as [|o ops IH]; intros w Hw; [done|].
  rewrite run_cons, IH by (by apply disposed_step).
  by apply listeners_step_disposed.
Qed.

(** A publish does not reach a function that is not in the listener array
    of its channel. *)
Lemma observed_emit_absent channel channel' cb m w :
  cb ∉ listeners channel w →
  observed channel cb (trace (ipcMain_emit channel' m w))
  = observed channel cb (trace w).
Proof.
  intros Hcb. rewrite trace_emit, observed_app.
  destruct (decide (channel' = channel)) as [->|Hne].
  - rewrite observed_deliveries, occurrences_absent by done.
    apply app_nil_r.
  - rewrite observed_deliveries_ne by done. apply app_nil_r.
Qed.

Lemma observed_step_disposed channel cb o w :
  disposed (toDispose w) = true →
  cb ∉ listeners channel w →
  observed channel cb (trace (step o w)) = observed channel cb (trace w).
Proof.
  intros Hw Hcb. destruct o; simpl.
  - by rewrite listen_disposed.
  - by rewrite write_disposed.
  - by rewrite dispose_disposed.
  - by rewrite dispose_disposed.
  - done.
  - done.
  - by apply observed_emit_absent.
Qed.

(** After the disposal, whoever is not in the listener array of a channel
    is never called again on behalf of that channel. *)
Lemma observed_run_disposed channel cb ops w :
  disposed (toDispose w) = true →
  cb ∉ listeners channel w →
  observed channel cb (trace (run ops w)) = observed channel cb (trace w).
Proof.
  revert w. induction ops as [|o ops IH]; intros w Hw Hcb; [done|].
  rewrite run_cons, IH.
  - by apply observed_step_disposed.
  - by apply disposed_step.
  - by rewrite listeners_step_disposed.
Qed.

(** No operation of the connection, and no publish, makes a call to a
    subscriber of the three signals. *)
Lemma fired_step o w : fired (trace (step o w)) = fired (trace w).
Proof.
  destruct o; simpl.
  - by rewrite trace_listen.
  - unfold write. destruct (disposed (toDispose w)); [done|]. simpl.
    rewrite fired_app, fired_deliveries. apply app_nil_r.
  - destruct (disposed (toDispose w)) eqn:Hw.
    + by rewrite dispose_disposed.
    + rewrite trace_dispose, fired_app, fired_Released by done.
      apply app_nil_r.
  - destruct (disposed (toDispose w)) eqn:Hw.
    + by rewrite dispose_disposed.
    + rewrite trace_dispose, fired_app, fired_Released by done.
      apply app_nil_r.
  - done.
  - done.
  - rewrite fired_app, fired_deliveries. apply app_nil_r.
Qed.

(** [fire] is what would call them: every current subscriber, once, in
    subscription order. *)
Lemma fired_fire sig (p : Payload) w :
  fired (trace (fire sig p w))
  = fired (trace w) ++ ((λ l, (sig, l, p)) <$> subscribers (emitter sig w)).
Proof.
  unfold fire. simpl. rewrite fired_app. f_equal.
  unfold fired. induction (subscribers (emitter sig w)) as [|l ls IH]; [done|].
  rewrite !fmap_cons. simpl. f_equal. exact IH.
Qed.

(** *** Live registrations *)

Lemma occurrences_snoc_ne (cb c : DataCallback) (l : list DataCallback) :
  c ≠ cb → occurrences cb (l ++ [c]) = occurrences cb l.
Proof.
  intros Hne. rewrite occurrences_app.
  rewrite (occurrences_absent cb [c]); [lia|].
  by intros ->%list_elem_of_singleton.
Qed.

Lemma occurrences_snoc_new (cb : DataCallback) (l : list DataCallback) :
  cb ∉ l → occurrences cb (l ++ [cb]) = 1.
Proof.
  intros Hcb. rewrite occurrences_app, occurrences_absent by done.
  unfold occurrences. by rewrite filter_cons_True.
Qed.

(** While the tracker is active, a [write] calls a function once per
    instance of it in the listener array of the channel. *)
Lemma observed_write cb m w :
  disposed (toDispose w) = false →
  observed ElectronIpcMainChannel cb (trace (write m w))
  = observed ElectronIpcMainChannel cb (trace w)
    ++ replicate (occurrences cb (listeners ElectronIpcMainChannel w)) m.
Proof.
  intros Hw. rewrite write_active by done.
  by rewrite trace_emit, observed_app, observed_deliveries.
Qed.

Lemma step_leaves_registered cb o w :
  leaves_registered cb o →
  disposed (toDispose w) = false →
  disposed (toDispose (step o w)) = false
  ∧ occurrences cb (listeners ElectronIpcMainChannel (step o w))
    = occurrences cb (listeners ElectronIpcMainChannel w).
Proof.
  intros Ho Hw. destruct o; simpl in *; try done.
  - rewrite toDispose_listen, listeners_listen by done.
    split; [done|]. by apply occurrences_snoc_ne.
  - by rewrite write_active.
Qed.

Lemma run_leaves_registered cb ops w :
  Forall (leaves_registered cb) ops →
  disposed (toDispose w) = false →
  disposed (toDispose (run ops w)) = false
  ∧ occurrences cb (listeners ElectronIpcMainChannel (run ops w))
    = occurrences cb (listeners ElectronIpcMainChannel w).
Proof.
  intros Hops. revert w.
  induction Hops as [|o ops Ho Hops IH]; intros w Hw; [done|].
  rewrite run_cons.
  destruct (step_leaves_registered cb o w Ho Hw) as [Hw' Hocc].
  destruct (IH _ Hw') as [Hw'' Hocc'].
  split; [done|]. by rewrite Hocc'.
Qed.

Lemma observed_writes cb ms w :
  disposed (toDispose w) = false →
  occurrences cb (listeners ElectronIpcMainChannel w) = 1 →
  observed ElectronIpcMainChannel cb (trace (run (Write <$> ms) w))
  = observed ElectronIpcMainChannel cb (trace w) ++ ms.
Proof.
  revert w. induction ms as [|m ms IH]; intros w Hw Hocc.
  - simpl. by rewrite app_nil_r.
  - rewrite fmap_cons, run_cons.
    destruct (step_leaves_registered cb (Write m) w I Hw) as [Hw' Hocc'].
    rewrite IH by (by rewrite ?Hocc').
    simpl. rewrite observed_write, Hocc by done.
    by rewrite <- app_assoc.
Qed.


(** *** Ownership of the registration *)

(** Registering with [listen] and disposing leaves every listener array as
    a disposal without the [listen] would. *)
Lemma listeners_dispose_listen channel cb w :
  disposed (toDispose w) = false →
  listeners channel (toDispose_dispose (listen cb w))
  = listeners channel (toDispose_dispose w).
Proof.
  intros Hw. unfold toDispose_dispose at 1 2.
  rewrite toDispose_listen, Hw by done. simpl.
  rewrite reverse_snoc, release_all_cons. revert channel.
  apply listeners_release_all_ext. intros channel.
  rewrite listeners_release.
  destruct (decide (channel = ElectronIpcMainChannel)) as [->|Hne].
  - change (remove_last cb (listeners ElectronIpcMainChannel (listen cb w))
            = listeners ElectronIpcMainChannel w).
    rewrite listeners_listen by done. apply remove_last_snoc.
  - change (listeners channel (listen cb w) = listeners channel w).
    by apply listeners_listen_ne.
Qed.

(** *** Every registration has its removal *)

Lemma unlisten_callbacks_snoc ds d :
  unlisten_callbacks (ds ++ [d])
  = unlisten_callbacks ds
    ++ match d with
       | Unlisten _ callback => [callback]
       | EmitterDisposable _ => []
       end.
Proof. unfold unlisten_callbacks. rewrite omap_app. by destruct d. Qed.

(** Releasing, most recent first, what [listen] has pushed takes the
    registrations of [listen] out one by one, from the end of the array. *)
Lemma listeners_release_all_owned ds foreign w :
  listeners ElectronIpcMainChannel w = foreign ++ unlisten_callbacks ds →
  listeners ElectronIpcMainChannel (release_all (reverse ds) w) = foreign.
Proof.
  revert w. induction ds as [|d ds IH] using rev_ind; intros w Hw.
  - simpl in *. by rewrite app_nil_r in Hw.
  - rewrite reverse_snoc, release_all_cons. apply IH.
    rewrite listeners_release, Hw, unlisten_callbacks_snoc.
    destruct d as [sig|n callback].
    + by rewrite app_nil_r.
    + rewrite decide_True by done.
      by rewrite app_assoc, remove_last_snoc.
Qed.

Lemma owns_registrations_step foreign o w :
  owns_registrations foreign w → owns_registrations foreign (step o w).
Proof.
  intros Hown.
  assert (owns_registrations foreign (toDispose_dispose w)) as Hdispose.
  { destruct (disposed (toDispose w)) eqn:Hw.
    { by rewrite dispose_disposed. }
    destruct Hown as [Hl _].
    unfold owns_registrations, toDispose_dispose. rewrite Hw.
    rewrite toDispose_release_all. simpl. split; [|done].
    rewrite app_nil_r. by apply listeners_release_all_owned. }
  destruct o; simpl; try done.
  - destruct (disposed (toDispose w)) eqn:Hw.
    { by rewrite listen_disposed. }
    destruct Hown as [Hl _].
    unfold owns_registrations.
    rewrite listeners_listen, toDispose_listen by done. simpl.
    split; [|done].
    by rewrite unlisten_callbacks_snoc, Hl, app_assoc.
  - unfold write. by destruct (negb (disposed (toDispose w))).
Qed.

Lemma owns_registrations_run foreign ops w :
  owns_registrations foreign w → owns_registrations foreign (run ops w).
Proof.
  revert w. induction ops as [|o ops IH]; intros w Hw; [done|].
  rewrite run_cons. by apply IH, owns_registrations_step.
Qed.

(** The module as loaded into a process whose [ipcMain] already holds [r]. *)
Lemma owns_registrations_loaded (r : gmap string (list DataCallback)) :
  owns_registrations (default [] (r !! ElectronIpcMainChannel))
    (with_ipcMain r init : World).
Proof. split; [|done]. unfold listeners. simpl. by rewrite app_nil_r. Qed.


(** *** The order of the disposal actions *)

Lemma emitter_release sig d w :
  emitter sig (release d w)
  = match d with
    | EmitterDisposable sig' =>
        if decide (sig' = sig) then Emitter_dispose (emitter sig w)
        else emitter sig w
    | Unlisten _ _ => emitter sig w
    end.
Proof. destruct d as [sig'|n callback]; [|done]. by destruct sig', sig. Qed.

Lemma same_resources_refl w : same_resources w w.
Proof. by repeat split. Qed.

Lemma same_resources_trans w1 w2 w3 :
  same_resources w1 w2 → same_resources w2 w3 → same_resources w1 w3.
Proof.
  intros (Hl & He & Ht & Hc) (Hl' & He' & Ht' & Hc').
  split_and!; intros; etrans; eauto.
Qed.

Lemma release_same_resources d w w' :
  same_resources w w' → same_resources (release d w) (release d w').
Proof.
  intros (Hl & He & Ht & Hc). split_and!.
  - intros channel. rewrite !listeners_release. destruct d; by rewrite Hl.
  - intros sig. rewrite !emitter_release. destruct d; by rewrite ?He.
  - by rewrite !toDispose_release.
  - by rewrite !created_release.
Qed.

Lemma release_all_same_resources ds w w' :
  same_resources w w' →
  same_resources (release_all ds w) (release_all ds w').
Proof.
  revert w w'. induction ds as [|d ds IH]; intros w w' Hww'; [done|].
  rewrite !release_all_cons. by apply IH, release_same_resources.
Qed.

(** Two disposal actions can run in either order. *)
Lemma release_comm d d' w :
  same_resources (release d (release d' w)) (release d' (release d w)).
Proof.
  split_and!.
  - intros channel. rewrite !listeners_release.
    destruct d, d'; repeat case_decide; try done. apply remove_last_comm.
  - intros sig. rewrite !emitter_release.
    destruct d, d'; repeat case_decide; done.
  - by rewrite !toDispose_release.
  - by rewrite !created_release.
Qed.

(** Hence the resources left by a disposal do not depend on the order in
    which the tracker runs its actions. *)
Lemma release_all_Permutation ds ds' w :
  ds ≡ₚ ds' → same_resources (release_all ds w) (release_all ds' w).
Proof.
  intros Hperm. revert w.
  induction Hperm as [|d ds ds' _ IH|d d' ds|ds1 ds2 ds3 _ IH1 _ IH2];
    intros w.
  - apply same_resources_refl.
  - rewrite !release_all_cons. apply IH.
  - rewrite !release_all_cons. apply release_all_same_resources, release_comm.
  - eapply same_resources_trans; [apply IH1|apply IH2].
Qed.


(** *** Distinct disposal actions *)

Lemma actions_distinct_init : actions_distinct (init : World).
Proof.
  assert (∀ d : Disposable, d ∈ [] → False) as Hnil
    by (intros d Hd; by apply elem_of_nil in Hd).
  split.
  - unfold released_or_tracked. simpl.
    repeat (apply NoDup_cons; split;
      [intros Hin;
       repeat (apply elem_of_cons in Hin as [Heq|Hin]; [discriminate Heq|]);
       by apply Hnil in Hin|]).
    apply NoDup_nil_2.
  - intros n callback. unfold released_or_tracked. simpl. intros Hin.
    repeat (apply elem_of_cons in Hin as [Heq|Hin]; [discriminate Heq|]).
    by apply Hnil in Hin.
Qed.

Lemma actions_distinct_step o w :
  actions_distinct w → actions_distinct (step o w).
Proof.
  intros [Hnd Hlt].
  assert (∀ channel m,
    actions_distinct (ipcMain_emit channel m w)) as Hemit.
  { intros channel m. unfold actions_distinct, released_or_tracked.
    rewrite trace_emit, released_app, released_deliveries, app_nil_r.
    by split. }
  assert (actions_distinct (toDispose_dispose w)) as Hdispose.
  { destruct (disposed (toDispose w)) eqn:Hw.
    { rewrite dispose_disposed by done. by split. }
    unfold actions_distinct, released_or_tracked.
    rewrite trace_dispose by done.
    unfold toDispose_dispose. rewrite Hw.
    rewrite toDispose_release_all, created_release_all. simpl.
    rewrite released_app, released_Released, app_nil_r.
    unfold released_or_tracked in Hnd, Hlt. split.
    - revert Hnd. rewrite !NoDup_app.
      intros (Hr & Hdisj & Hd).
      split_and!; [done| |by rewrite reverse_Permutation].
      intros d Hd1 Hd2. rewrite elem_of_reverse in Hd2. by apply (Hdisj d).
    - intros n callback Hin. apply (Hlt n callback).
      revert Hin. rewrite !elem_of_app, elem_of_reverse. done. }
  destruct o; simpl; try done.
  - destruct (disposed (toDispose w)) eqn:Hw.
    { rewrite listen_disposed by done. by split. }
    unfold actions_distinct, released_or_tracked.
    rewrite trace_listen, toDispose_listen by done. simpl.
    assert (created (listen callback w) = S (created w)) as ->
      by (unfold listen; by rewrite Hw).
    unfold released_or_tracked in Hnd, Hlt. split.
    + rewrite app_assoc. apply NoDup_app. split_and!; [done| |].
      * intros d Hd ->%list_elem_of_singleton.
        apply Hlt in Hd. lia.
      * apply NoDup_singleton.
    + intros n cb'. rewrite app_assoc, elem_of_app, list_elem_of_singleton.
      intros [Hin|[= -> ->]]; [|lia].
      apply Hlt in Hin. lia.
  - unfold write. destruct (disposed (toDispose w)); [by split|]. apply Hemit.
Qed.

Lemma actions_distinct_run ops w :
  actions_distinct w → actions_distinct (run ops w).
Proof.
  revert w. induction ops as [|o ops IH]; intros w Hw; [done|].
  rewrite run_cons. by apply IH, actions_distinct_step.
Qed.


(** ** Properties of the transport *)

(** C1.  From a world whose tracker is not disposed, register [cb] with the
    reader's [listen] ([cb] not being in the listener array already).  As
    long as nothing disposes the tracker or registers [cb] again, a single
    [write(m)] makes exactly one call to [cb], and its argument is [m]: the
    calls the write makes are one per entry of the listener array, each
    with [m] itself, and [cb] is in the array once. *)
Theorem write_calls_listener_once_with_message s cb between m :
  disposed (toDispose s) = false →
  cb ∉ listeners ElectronIpcMainChannel s →
  Forall (leaves_registered cb) between →
  let s' := run between (reader_listen reader cb s) in
  let s'' := writer_write writer m s' in
  trace s''
  = trace s' ++ ((λ callback, Delivered ElectronIpcMainChannel callback m)
                   <$> listeners ElectronIpcMainChannel s')
  ∧ occurrences cb (listeners ElectronIpcMainChannel s') = 1
  ∧ observed ElectronIpcMainChannel cb (trace s'')
    = observed ElectronIpcMainChannel cb (trace s') ++ [m].
Proof.
  intros Hs Hcb Hbetween s' s''.
  assert (disposed (toDispose (listen cb s)) = false) as Hl
    by by rewrite toDispose_listen.
  destruct (run_leaves_registered cb between (listen cb s) Hbetween Hl)
    as [Hs' Hocc].
  assert (occurrences cb (listeners ElectronIpcMainChannel s') = 1) as Hone.
  { unfold s'. simpl. rewrite Hocc, listeners_listen by done.
    by apply occurrences_snoc_new. }
  unfold s''. simpl. split_and!.
  - by rewrite write_active.
  - done.
  - rewrite observed_write by done. by rewrite Hone.
Qed.

(** C2.  From a world whose tracker is not disposed, register [cb] with
    [listen] and then issue [write(m1)], ..., [write(mn)]: the messages [cb]
    is called with during the writes are [m1], ..., [mn], in that order,
    none missing and none twice ([ipcMain.emit] calling its listeners before
    it returns). *)
Theorem writes_are_observed_in_order s cb ms :
  disposed (toDispose s) = false →
  cb ∉ listeners ElectronIpcMainChannel s →
  observed ElectronIpcMainChannel cb
    (trace (run (Write <$> ms) (reader_listen reader cb s)))
  = observed ElectronIpcMainChannel cb (trace s) ++ ms.
Proof.
  intros Hs Hcb. simpl.
  rewrite observed_writes.
  - by rewrite trace_listen.
  - by rewrite toDispose_listen.
  - rewrite listeners_listen by done. by apply occurrences_snoc_new.
Qed.

(** C3.  Once [dispose()] has been called, on the reader or on the writer,
    and whatever has happened since, [write(m)] returns the world it was
    given: nothing is published (the trace does not grow, so no listener is
    called), no state changes, and the call completes normally. *)
Theorem write_after_dispose_is_noop s ops m :
  let after_reader := run ops (reader_dispose reader s) in
  let after_writer := run ops (writer_dispose writer s) in
  writer_write writer m after_reader = after_reader
  ∧ writer_write writer m after_writer = after_writer
  ∧ trace (writer_write writer m after_writer) = trace after_writer.
Proof.
  intros after_reader after_writer.
  assert (disposed (toDispose after_writer) = true) as Hd
    by apply disposed_run, disposed_dispose.
  split_and!; simpl.
  - by apply write_disposed.
  - by apply write_disposed.
  - by rewrite write_disposed.
Qed.

(** C4.  Once [dispose()] has been called, [listen(cb)] returns the world
    it was given: [ipcMain] and the tracker are left as they were and the
    call completes normally.  If [cb] is not in the listener array of the
    channel by some other registration, no later publish calls it. *)
Theorem listen_after_dispose_registers_nothing s ops cb later :
  let s' := run ops (reader_dispose reader s) in
  reader_listen reader cb s' = s'
  ∧ ipcMain (reader_listen reader cb s') = ipcMain s'
  ∧ toDispose (reader_listen reader cb s') = toDispose s'
  ∧ (cb ∉ listeners ElectronIpcMainChannel s' →
     observed ElectronIpcMainChannel cb
       (trace (run later (reader_listen reader cb s')))
     = observed ElectronIpcMainChannel cb (trace s')).
Proof.
  intros s'.
  assert (disposed (toDispose s') = true) as Hd
    by apply disposed_run, disposed_dispose.
  simpl. rewrite listen_disposed by done.
  split_and!; try done.
  intros Hcb. by apply observed_run_disposed.
Qed.

(** C5.  A second [dispose()], on the reader or on the writer, returns the
    world the first one produced, whatever world the first one started
    from; and in every world reached from the freshly loaded module, over
    the whole history with both disposals included, no tracked disposal
    action has run more than once. *)
Theorem dispose_is_idempotent w ops :
  reader_dispose reader (reader_dispose reader w) = reader_dispose reader w
  ∧ writer_dispose writer (writer_dispose writer w) = writer_dispose writer w
  ∧ writer_dispose writer (reader_dispose reader w) = reader_dispose reader w
  ∧ reader_dispose reader (writer_dispose writer w) = writer_dispose writer w
  ∧ let s : World := run ops init in
    NoDup (released (trace (reader_dispose reader (reader_dispose reader s)))).
Proof.
  assert (∀ w', toDispose_dispose (toDispose_dispose w') = toDispose_dispose w')
    as Hidem by (intros w'; apply dispose_disposed, disposed_dispose).
  split_and!; simpl; try apply Hidem.
  rewrite Hidem.
  assert (actions_distinct (toDispose_dispose (run ops (init : World))))
    as [Hnd _].
  { change (toDispose_dispose (run ops init))
      with (step ReaderDispose (run ops (init : World))).
    apply actions_distinct_step, actions_distinct_run, actions_distinct_init. }
  unfold released_or_tracked in Hnd.
  by apply NoDup_app in Hnd as (? & _ & _).
Qed.

(** C6.  Whatever the world and whatever the sequence of [listen], [write]
    and [dispose] calls (and of subscriptions and publishes besides), the
    calls made to subscribers of [onError], [onClose] and
    [onPartialMessage] are those of the starting trace: the transport adds
    none. *)
Theorem signals_are_never_fired s ops :
  fired (trace (run ops s)) = fired (trace s).
Proof.
  revert s. induction ops as [|o ops IH]; intros s; [done|].
  rewrite run_cons, IH. apply fired_step.
Qed.

(** C7.  Take a world whose tracker is not disposed, where the listener
    array of the channel is made of [foreign], the registrations of other
    parties, followed by those whose removal the tracker holds, and where
    [cb] is not registered.  Then [listen(cb)] puts [cb] at the end of the
    array, where a write reaches it; and a disposal takes out what [listen]
    has registered, [cb] with it, and nothing else: the array is [foreign]
    again, the arrays of the other channels are untouched, and without an
    earlier [listen] to undo the array is the one from before [listen(cb)].
    From then on nothing, publishes by other parties included, makes a call
    to [cb] on behalf of the channel. *)
Theorem dispose_removes_the_listen_registration s cb foreign m later :
  disposed (toDispose s) = false →
  cb ∉ listeners ElectronIpcMainChannel s →
  listeners ElectronIpcMainChannel s
  = foreign ++ unlisten_callbacks (disposables (toDispose s)) →
  let registered := reader_listen reader cb s in
  let s' := reader_dispose reader registered in
  listeners ElectronIpcMainChannel registered
  = listeners ElectronIpcMainChannel s ++ [cb]
  ∧ observed ElectronIpcMainChannel cb
      (trace (writer_write writer m registered))
    = observed ElectronIpcMainChannel cb (trace s) ++ [m]
  ∧ listeners ElectronIpcMainChannel s' = foreign
  ∧ (unlisten_callbacks (disposables (toDispose s)) = [] →
     listeners ElectronIpcMainChannel s' = listeners ElectronIpcMainChannel s)
  ∧ (∀ channel, channel ≠ ElectronIpcMainChannel →
       listeners channel s' = listeners channel s)
  ∧ (∀ channel, listeners channel s' = listeners channel (reader_dispose reader s))
  ∧ (cb ∉ listeners ElectronIpcMainChannel s')
  ∧ observed ElectronIpcMainChannel cb (trace (run later s'))
    = observed ElectronIpcMainChannel cb (trace s).
Proof.
  intros Hs Hcb Hown registered s'. unfold s', registered. simpl.
  assert (disposed (toDispose (listen cb s)) = false) as Hl
    by by rewrite toDispose_listen.
  assert (listeners ElectronIpcMainChannel (toDispose_dispose (listen cb s))
          = foreign) as Hforeign.
  { assert (owns_registrations foreign
              (step ReaderDispose (step (Listen cb) s))) as [Hafter Hnone].
    { apply owns_registrations_step, owns_registrations_step.
      split; [done|]. intros Hd. by rewrite Hd in Hs. }
    simpl in Hafter, Hnone.
    rewrite Hafter, Hnone by apply disposed_dispose. apply app_nil_r. }
  assert (cb ∉ listeners ElectronIpcMainChannel
                 (toDispose_dispose (listen cb s))) as Hgone.
  { rewrite listeners_dispose_listen by done.
    intros Hin. by apply listeners_dispose_subseteq in Hin. }
  split_and!.
  - by apply listeners_listen.
  - rewrite observed_write, listeners_listen, trace_listen by done.
    by rewrite occurrences_snoc_new.
  - done.
  - intros Hnone. by rewrite Hforeign, Hown, Hnone, app_nil_r.
  - intros channel Hne. unfold toDispose_dispose. rewrite Hl.
    rewrite listeners_release_all_ne by done.
    change (listeners channel (listen cb s) = listeners channel s).
    by apply listeners_listen_ne.
  - intros channel. by apply listeners_dispose_listen.
  - done.
  - rewrite observed_run_disposed by (done || apply disposed_dispose).
    rewrite trace_dispose by done.
    by rewrite observed_app, observed_Released, app_nil_r, trace_listen.
Qed.

(** C8.  Register two different functions [a] and [b] on the channel, then
    write once: the write calls [a] exactly once with the message, and [b]
    exactly once with the message; more generally every function in the
    listener array at the time of the write is called with it. *)
Theorem write_fans_out_to_every_listener s a b m :
  disposed (toDispose s) = false →
  a ≠ b →
  a ∉ listeners ElectronIpcMainChannel s →
  b ∉ listeners ElectronIpcMainChannel s →
  let registered := reader_listen reader b (reader_listen reader a s) in
  let s' := writer_write writer m registered in
  observed ElectronIpcMainChannel a (trace s')
  = observed ElectronIpcMainChannel a (trace s) ++ [m]
  ∧ observed ElectronIpcMainChannel b (trace s')
    = observed ElectronIpcMainChannel b (trace s) ++ [m]
  ∧ ∀ c, c ∈ listeners ElectronIpcMainChannel registered →
         Delivered ElectronIpcMainChannel c m ∈ trace s'.
Proof.
  intros Hs Hab Ha Hb registered s'.
  assert (disposed (toDispose (listen a s)) = false) as Hsa
    by by rewrite toDispose_listen.
  assert (disposed (toDispose registered) = false) as Hsb
    by (unfold registered; simpl; by rewrite toDispose_listen).
  assert (listeners ElectronIpcMainChannel registered
          = (listeners ElectronIpcMainChannel s ++ [a]) ++ [b]) as Hreg
    by (unfold registered; simpl; by rewrite !listeners_listen).
  assert (trace registered = trace s) as Htr
    by (unfold registered; simpl; by rewrite !trace_listen).
  unfold s'. simpl. split_and!.
  - rewrite observed_write, Hreg, Htr by done. f_equal.
    rewrite occurrences_snoc_ne by done.
    by rewrite occurrences_snoc_new.
  - rewrite observed_write, Hreg, Htr by done. f_equal.
    rewrite occurrences_snoc_new; [done|].
    rewrite elem_of_app, list_elem_of_singleton. by intros [?|?].
  - intros c Hc. rewrite write_active, trace_emit by done.
    apply elem_of_app. right.
    apply list_elem_of_fmap. by exists c.
Qed.

(** C9.  The reader's [dispose] and the writer's [dispose] are one and the
    same transition of the one tracker: after either of them, and whatever
    happens next, the tracker is disposed and both [listen] and [write]
    return the world unchanged.  And in any world [w] whatever, either both
    halves are inert or both operate: none is disposed without the other. *)
Theorem reader_and_writer_share_the_tracker s ops cb m :
  let after_reader := run ops (reader_dispose reader s) in
  let after_writer := run ops (writer_dispose writer s) in
  reader_dispose reader s = writer_dispose writer s
  ∧ disposed (toDispose (reader_dispose reader s)) = true
  ∧ disposed (toDispose after_reader) = true
  ∧ reader_listen reader cb after_reader = after_reader
  ∧ writer_write writer m after_reader = after_reader
  ∧ disposed (toDispose after_writer) = true
  ∧ reader_listen reader cb after_writer = after_writer
  ∧ writer_write writer m after_writer = after_writer
  ∧ ∀ w,
      (reader_listen reader cb w = w ∧ writer_write writer m w = w)
      ∨ (listeners ElectronIpcMainChannel (reader_listen reader cb w)
         = listeners ElectronIpcMainChannel w ++ [cb]
         ∧ writer_write writer m w
           = ipcMain_emit ElectronIpcMainChannel m w).
Proof.
  intros after_reader after_writer.
  assert (disposed (toDispose after_writer) = true) as Hd
    by apply disposed_run, disposed_dispose.
  split_and!; simpl; try done.
  - apply disposed_dispose.
  - by apply listen_disposed.
  - by apply write_disposed.
  - by apply listen_disposed.
  - by apply write_disposed.
  - intros w. destruct (disposed (toDispose w)) eqn:Hw.
    + left. by rewrite listen_disposed, write_disposed.
    + right. by rewrite listeners_listen, write_active.
Qed.

(** Whatever other parties had registered with [ipcMain] before the module
    was loaded, and whatever the history since, once [dispose()] has run the
    listener array of the module's channel is what it was at load time:
    every registration made by [listen] is gone, and nothing else is; so no
    function is called on behalf of the channel that those parties did not
    register themselves. *)
Theorem dispose_unregisters_every_listen
  (r : gmap string (list DataCallback)) ops later cb :
  let s : World := reader_dispose reader (run ops (with_ipcMain r init)) in
  listeners ElectronIpcMainChannel s = default [] (r !! ElectronIpcMainChannel)
  ∧ listeners ElectronIpcMainChannel (run later s)
    = default [] (r !! ElectronIpcMainChannel)
  ∧ (cb ∉ default [] (r !! ElectronIpcMainChannel) →
     observed ElectronIpcMainChannel cb (trace (run later s))
     = observed ElectronIpcMainChannel cb (trace s)).
Proof.
  intros s.
  assert (disposed (toDispose s) = true) as Hd by apply disposed_dispose.
  assert (listeners ElectronIpcMainChannel s
          = default [] (r !! ElectronIpcMainChannel)) as Hl.
  { assert (owns_registrations (default [] (r !! ElectronIpcMainChannel)) s)
      as [Hl He].
    { change s with (step ReaderDispose (run ops (with_ipcMain r init : World))).
      apply owns_registrations_step, owns_registrations_run,
        owns_registrations_loaded. }
    rewrite Hl, He by done. apply app_nil_r. }
  split_and!.
  - done.
  - by rewrite listeners_run_disposed.
  - intros Hcb. apply observed_run_disposed; [done|]. by rewrite Hl.
Qed.

(** [ipcMain.on] keeps every instance of a function: while the tracker is
    not disposed, each [listen(cb)] adds one instance of [cb] to the
    listener array of the channel, and a [write(m)] calls [cb] with [m]
    once per instance. *)
Theorem write_calls_once_per_registration s cb m :
  disposed (toDispose s) = false →
  occurrences cb (listeners ElectronIpcMainChannel (reader_listen reader cb s))
  = S (occurrences cb (listeners ElectronIpcMainChannel s))
  ∧ observed ElectronIpcMainChannel cb (trace (writer_write writer m s))
    = observed ElectronIpcMainChannel cb (trace s)
      ++ replicate (occurrences cb (listeners ElectronIpcMainChannel s)) m.
Proof.
  intros Hs. simpl. split.
  - rewrite listeners_listen, occurrences_app by done.
    unfold occurrences at 2. rewrite filter_cons_True by done. simpl. lia.
  - by apply observed_write.
Qed.

(** *** The transport and the other channels of [ipcMain] *)

Lemma listeners_dispose_ne channel w :
  channel ≠ ElectronIpcMainChannel →
  listeners channel (toDispose_dispose w) = listeners channel w.
Proof.
  intros Hne. unfold toDispose_dispose.
  destruct (disposed (toDispose w)); [done|].
  by rewrite listeners_release_all_ne.
Qed.

Lemma listeners_write channel m w :
  listeners channel (write m w) = listeners channel w.
Proof. unfold write. by destruct (disposed (toDispose w)). Qed.

Lemma listeners_step_ne channel o w :
  channel ≠ ElectronIpcMainChannel →
  listeners channel (step o w) = listeners channel w.
Proof.
  intros Hne. destruct o; simpl; try done.
  - by apply listeners_listen_ne.
  - apply listeners_write.
  - by apply listeners_dispose_ne.
  - by apply listeners_dispose_ne.
Qed.

Lemma observed_dispose channel cb w :
  observed channel cb (trace (toDispose_dispose w))
  = observed channel cb (trace w).
Proof.
  destruct (disposed (toDispose w)) eqn:Hw.
  - by rewrite dispose_disposed.
  - rewrite trace_dispose, observed_app, observed_Released by done.
    apply app_nil_r.
Qed.

Lemma observed_step_ne channel cb o w :
  channel ≠ ElectronIpcMainChannel →
  ¬ publishes_on channel o →
  observed channel cb (trace (step o w)) = observed channel cb (trace w).
Proof.
  intros Hne Ho. destruct o; simpl in *; try done.
  - by rewrite trace_listen.
  - unfold write. destruct (disposed (toDispose w)); [done|]. simpl.
    rewrite observed_app, observed_deliveries_ne by done. apply app_nil_r.
  - apply observed_dispose.
  - apply observed_dispose.
  - rewrite observed_app, observed_deliveries_ne by done. apply app_nil_r.
Qed.

(** The transport keeps to its own channel.  [ipcMain] is an event emitter
    of the platform, which announces a registration and a removal on its
    own events [newListener] and [removeListener]; those two set aside,
    whatever the history, the listener array of any other channel of
    [ipcMain] is left as it was; and unless some party publishes on that
    other channel itself, nobody is called on its behalf. *)
Theorem transport_keeps_to_its_channel s ops channel cb :
  channel ≠ ElectronIpcMainChannel →
  channel ≠ "newListener" →
  channel ≠ "removeListener" →
  Forall (λ o, ¬ publishes_on channel o) ops →
  listeners channel (run ops s) = listeners channel s
  ∧ observed channel cb (trace (run ops s)) = observed channel cb (trace s).
Proof.
  intros Hne _ _ Hops. revert s.
  induction Hops as [|o ops Ho Hops IH]; intros s; [done|].
  rewrite run_cons. destruct (IH (step o s)) as [-> ->].
  by rewrite listeners_step_ne, observed_step_ne.
Qed.

(** Nothing is buffered: a function registered with [listen] after some
    writes is not called with any of the messages written before. *)
Theorem listen_does_not_replay s cb ms :
  cb ∉ listeners ElectronIpcMainChannel s →
  let s' := reader_listen reader cb (run (Write <$> ms) s) in
  observed ElectronIpcMainChannel cb (trace s')
  = observed ElectronIpcMainChannel cb (trace s).
Proof.
  intros Hcb. simpl. rewrite trace_listen. revert s Hcb.
  induction ms as [|m ms IH]; intros s Hcb; [done|].
  rewrite fmap_cons, run_cons. simpl.
  rewrite IH by (by rewrite listeners_write).
  unfold write. destruct (disposed (toDispose s)); [done|]. simpl.
  by apply observed_emit_absent.
Qed.

(** Registration order is call order.  While the tracker is not disposed,
    the functions given to successive [listen] calls are appended to the
    listener array of the channel in the order of the calls, and a write
    then calls the whole array in that order. *)
Theorem listeners_are_called_in_registration_order s cbs m :
  disposed (toDispose s) = false →
  let s' := run (Listen <$> cbs) s in
  disposed (toDispose s') = false
  ∧ listeners ElectronIpcMainChannel s'
    = listeners ElectronIpcMainChannel s ++ cbs
  ∧ trace (writer_write writer m s')
    = trace s
      ++ ((λ callback, Delivered ElectronIpcMainChannel callback m)
            <$> (listeners ElectronIpcMainChannel s ++ cbs)).
Proof.
  intros Hs. simpl.
  assert (disposed (toDispose (run (Listen <$> cbs) s)) = false
          ∧ listeners ElectronIpcMainChannel (run (Listen <$> cbs) s)
            = listeners ElectronIpcMainChannel s ++ cbs
          ∧ trace (run (Listen <$> cbs) s) = trace s) as (Hd & Hl & Ht).
  { revert s Hs. induction cbs as [|cb cbs IH]; intros s Hs.
    - simpl. by rewrite app_nil_r.
    - rewrite fmap_cons, run_cons. simpl.
      destruct (IH (listen cb s)) as (Hd & Hl & Ht);
        [by rewrite toDispose_listen|].
      rewrite Hd, Hl, Ht, listeners_listen, trace_listen by done.
      by rewrite <- app_assoc. }
  split_and!; [done..|].
  by rewrite write_active, trace_emit, Hl, Ht.
Qed.

End ConnectionFacts.

(** ** JSON values *)

Lemma member_set_member key v ms : member key (set_member key v ms) = Some v.
Proof.
  induction ms as [|[k x] ms IH]; simpl.
  - by rewrite decide_True.
  - destruct (decide (k = key)) as [->|Hne]; simpl.
    + by rewrite decide_True.
    + by rewrite decide_False.
Qed.

Lemma member_set_member_ne key key' v ms :
  key ≠ key' → member key' (set_member key v ms) = member key' ms.
Proof.
  intros Hne. induction ms as [|[k x] ms IH]; simpl.
  - by rewrite decide_False.
  - destruct (decide (k = key)) as [->|Hk]; simpl.
    + by rewrite !decide_False.
    + destruct (decide (k = key')); [done|apply IH].
Qed.

(** A step that can be read can be written, and reads back what was
    written. *)
Lemma get_put a c v :
  is_Some (get a v) → ∃ v', put a c v = Some v' ∧ get a v' = Some c.
Proof.
  intros [old Hold].
  destruct a as [k|i], v as [| | | |xs|ms]; simpl in *; try done.
  - eexists. split; [done|]. simpl. apply member_set_member.
  - eexists. split; [done|]. simpl.
    apply list_lookup_insert_eq. by eapply lookup_lt_Some.
Qed.

(** A change made at the end of a path is what a read of that path finds,
    and it was made to what the path led to before. *)
Lemma path_get_modify p f v v' :
  path_modify p f v = Some v' →
  ∃ o o', path_get p v = Some o ∧ f o = Some o' ∧ path_get p v' = Some o'.
Proof.
  revert v v'. induction p as [|a p IH]; intros v v' Hv'; simpl in *.
  - by exists v, v'.
  - destruct (get a v) as [child|] eqn:Hchild; simpl in *; [|done].
    destruct (path_modify p f child) as [child'|] eqn:Hchild'; simpl in *;
      [|done].
    destruct (IH _ _ Hchild') as (o & o' & Ho & Hf & Ho').
    exists o, o'. split_and!; [done..|].
    destruct (get_put a child' v) as (v'' & Hput & Hget); [by eexists|].
    rewrite Hput in Hv'. injection Hv' as <-. by rewrite Hget.
Qed.

Lemma path_get_app p q v :
  path_get (p ++ q) v = path_get p v ≫= path_get q.
Proof.
  revert v. induction p as [|a p IH]; intros v; simpl; [done|].
  destruct (get a v); simpl; [apply IH|done].
Qed.

(** ** The task schema updater *)

Lemma prefix_dollar_cons (n : string) :
  String.prefix "$" ("$" +:+ n) = true.
Proof.
  simpl. by destruct n.
Qed.

Lemma matcherName_prefixed (n : string) :
  String.prefix "$" n = true → matcherName n = n.
Proof. intros Hn. unfold matcherName. by rewrite Hn. Qed.

Lemma matcherName_bare (n : string) :
  String.prefix "$" n = false → matcherName n = "$" +:+ n.
Proof. intros Hn. unfold matcherName. by rewrite Hn. Qed.

Lemma prefix_matcherName (n : string) :
  String.prefix "$" (matcherName n) = true.
Proof.
  destruct (String.prefix "$" n) eqn:Hn.
  - by rewrite matcherName_prefixed.
  - rewrite matcherName_bare by done. apply prefix_dollar_cons.
Qed.

Lemma matcherName_idemp (n : string) :
  matcherName (matcherName n) = matcherName n.
Proof. apply matcherName_prefixed, prefix_matcherName. Qed.

(** Two matcher names get the same name in the schema exactly when they are
    equal or differ by one leading dollar sign: the registry's ["gcc"] and
    ["$gcc"] both become ["$gcc"]. *)
Theorem matcherName_collisions (a b : string) :
  matcherName a = matcherName b
  ↔ a = b
    ∨ (String.prefix "$" b = false ∧ a = "$" +:+ b)
    ∨ (String.prefix "$" a = false ∧ b = "$" +:+ a).
Proof.
  split.
  - destruct (String.prefix "$" a) eqn:Ha, (String.prefix "$" b) eqn:Hb;
      rewrite ?(matcherName_prefixed a), ?(matcherName_prefixed b),
        ?(matcherName_bare a), ?(matcherName_bare b) by done.
    + by left.
    + intros ->. right. by left.
    + intros Hab. right. right. by split.
    + intros Hab. left. simpl in Hab. by injection Hab.
  - intros [->|[[Hb ->]|[Ha ->]]]; [done| |].
    + rewrite matcherName_prefixed by apply prefix_dollar_cons.
      by rewrite matcherName_bare.
    + rewrite (matcherName_prefixed ("$" +:+ a)) by apply prefix_dollar_cons.
      by rewrite matcherName_bare.
Qed.

Section TaskSchemaUpdaterFacts.
Context {ProblemMatcher URI Resources : Type}.
Variable name : ProblemMatcher → string.
Variable argument_limit : nat.
Variable new_URI : string → URI.
Variable URI_toString : URI → string.
Variable resources_update : URI → string → Resources → option Resources.
Variable resources_add : URI → string → Resources → option Resources.
Variable JSON_stringify : json → string.
Variable inputs : json.

(** As long as the registry has no more matchers than one call takes
    arguments, [updateProblemMatcherNames] returns and the array holds one
    name per matcher, in the registry's order: the matcher's own name when
    that begins with a dollar sign, the name with a dollar sign put in
    front otherwise.  So every entry begins with a dollar sign, and names
    that went through once go through unchanged.  With more matchers than
    that it throws and leaves the array empty.  Either way, what the array
    held before plays no part. *)
Theorem updateProblemMatcherNames_renames_the_registry
  (registry : list ProblemMatcher) (old : list string) :
  updateProblemMatcherNames name argument_limit registry old
  = updateProblemMatcherNames name argument_limit registry []
  ∧ (length registry ≤ argument_limit →
     ∃ names,
       updateProblemMatcherNames name argument_limit registry old
       = Returned names
       ∧ length names = length registry
       ∧ (∀ i m, registry !! i = Some m →
            names !! i
            = Some (if String.prefix "$" (name m) then name m
                    else "$" +:+ name m))
       ∧ Forall (λ n, String.prefix "$" n = true) names
       ∧ matcherName <$> names = names)
  ∧ (argument_limit < length registry →
     updateProblemMatcherNames name argument_limit registry old
     = RangeError []).
Proof.
  unfold updateProblemMatcherNames. cbv zeta.
  rewrite !take_0, !app_nil_l, length_fmap. split_and!.
  - done.
  - intros Hfits. rewrite decide_True by done.
    eexists. split; [done|]. split_and!.
    + by rewrite length_fmap.
    + intros i m Hm. by rewrite list_lookup_fmap, Hm.
    + apply Forall_fmap, Forall_forall. intros m _. apply prefix_matcherName.
    + rewrite <- list_fmap_compose. apply list_fmap_ext.
      intros i m _. apply matcherName_idemp.
  - intros Hmany. rewrite decide_False by lia. done.
Qed.

(** The assignment of line 142 finds its object: whatever the names, the
    inputs and the task types, [getTaskSchema] builds its schema. *)
Lemma taskSchema_Some names taskTypes :
  is_Some (taskSchema inputs names taskTypes).
Proof. unfold taskSchema. by eexists. Qed.

(** [getTaskSchema] never fails on its way to the [type] property, and the
    schema it serialises differs from the literal in one place only: the
    [enum] of [type] is the list of registered task types (empty when none
    is registered), in place of [shell] and [process].  Both [enum]s of
    [problemMatcher], for a single name and for an array of names, are the
    names the array held when the method was called. *)
Theorem getTaskSchema_lists_task_types_and_matchers names taskTypes :
  ∃ schema,
    taskSchema inputs names taskTypes = Some schema
    ∧ getTaskSchema JSON_stringify inputs names taskTypes
      = Some (JSON_stringify schema)
    ∧ path_get (type_path ++ [Key "enum"]) schema = Some (strings taskTypes)
    ∧ path_get (problemMatcher_path ++ [Key "oneOf"; Index 0; Key "enum"])
        schema = Some (strings names)
    ∧ path_get (problemMatcher_path
                  ++ [Key "oneOf"; Index 2; Key "items"; Key "enum"])
        schema = Some (strings names)
    ∧ path_get [Key "properties"; Key "inputs"] schema = Some inputs
    ∧ path_modify type_path (assign "enum" (strings ["shell"; "process"]))
        schema = Some (taskSchema_literal inputs names).
Proof.
  destruct (taskSchema_Some names taskTypes) as [schema Hschema].
  exists schema. split; [done|].
  split; [unfold getTaskSchema; by rewrite Hschema|].
  pose proof Hschema as Hread. unfold taskSchema in Hread.
  apply path_get_modify in Hread as (o & o' & _ & Ho' & Hget).
  split.
  { rewrite path_get_app, Hget. simpl.
    destruct o as [| | | | |ms]; simpl in Ho'; try done.
    injection Ho' as <-. simpl. by rewrite member_set_member. }
  unfold taskSchema in Hschema. injection Hschema as <-.
  split_and!; reflexivity.
Qed.

Section Committing.

(** What [InMemoryResources] is taken to do: [resolve] reads the content
    of a resource; [update] throws exactly when there is no such resource
    and otherwise sets its content; [add] makes a resource that was not
    there. *)
Variable resolve : URI → Resources → option string.
Hypothesis update_spec : ∀ uri content r,
  match resources_update uri content r with
  | Some r' => is_Some (resolve uri r) ∧ resolve uri r' = Some content
  | None => resolve uri r = None
  end.
Hypothesis add_spec : ∀ uri content r,
  resolve uri r = None →
  ∃ r', resources_add uri content r = Some r'
        ∧ resolve uri r' = Some content.

#[local] Abbreviation taskSchemaUri := (new_URI taskSchemaId).
#[local] Abbreviation update_ :=
  (update new_URI URI_toString resources_update resources_add
     JSON_stringify inputs).
#[local] Abbreviation updates_ :=
  (updates new_URI URI_toString resources_update resources_add
     JSON_stringify inputs).

#[local] Abbreviation registration := (registration new_URI URI_toString).

Lemma update_commits names taskTypes st :
  ∃ st',
    update_ names taskTypes st = Some st'
    ∧ resolve taskSchemaUri (inmemoryResources st')
      = getTaskSchema JSON_stringify inputs names taskTypes
    ∧ jsonSchemaStore st'
      = jsonSchemaStore st
        ++ match resolve taskSchemaUri (inmemoryResources st) with
           | Some _ => []
           | None => [registration]
           end.
Proof.
  destruct (taskSchema_Some names taskTypes) as [schema Hschema].
  unfold update, getTaskSchema. rewrite Hschema. simpl.
  unfold update_commit.
  pose proof (update_spec taskSchemaUri (JSON_stringify schema)
                (inmemoryResources st)) as Hupdate.
  destruct (resources_update _ _ _) as [r|].
  - destruct Hupdate as [[old Hold] Hr]. eexists. split; [done|]. simpl.
    rewrite Hold. split; [done|]. by rewrite app_nil_r.
  - destruct (add_spec taskSchemaUri (JSON_stringify schema)
                (inmemoryResources st) Hupdate) as (r & Hadd & Hr).
    rewrite Hadd. simpl. eexists. split; [done|]. simpl.
    by rewrite Hupdate.
Qed.

Lemma updates_cons run runs st :
  updates_ (run :: runs) st = update_ run.1 run.2 st ≫= updates_ runs.
Proof.
  unfold updates. simpl.
  destruct (update_ run.1 run.2 st) as [st'|]; [done|]. simpl.
  by induction runs.
Qed.

(** However many updates complete, and whatever they write, the schema
    store is told of the schema once, by the first of them, and only if the
    resource was not there before; no update fails, and the resource ends
    with the schema of the update that completed last. *)
Theorem schema_is_registered_once runs run st :
  last runs = Some run →
  ∃ st',
    updates_ runs st = Some st'
    ∧ resolve taskSchemaUri (inmemoryResources st')
      = getTaskSchema JSON_stringify inputs run.1 run.2
    ∧ jsonSchemaStore st'
      = jsonSchemaStore st
        ++ match resolve taskSchemaUri (inmemoryResources st) with
           | Some _ => []
           | None => [registration]
           end.
Proof.
  revert st. induction runs as [|r runs IH]; intros st Hlast; [done|].
  rewrite updates_cons.
  destruct (update_commits r.1 r.2 st) as (st1 & Hst1 & Hres & Hstore).
  rewrite Hst1. simpl.
  destruct runs as [|r' runs].
  - injection Hlast as <-. by exists st1.
  - destruct (IH st1) as (st' & Hst' & Hres' & Hstore'); [done|].
    exists st'. split_and!; [done..|].
    rewrite Hstore', Hstore, Hres.
    destruct (taskSchema_Some r.1 r.2) as [schema Hschema].
    unfold getTaskSchema. rewrite Hschema. simpl. by rewrite app_nil_r.
Qed.

End Committing.

End TaskSchemaUpdaterFacts.

(** * The scenarios *)

(** ** The model at work *)

(** Loading the module leaves the tracker active, with the three emitters
    in it. *)
Example scenario_loaded :
  disposed (toDispose loaded) = false
  ∧ disposables (toDispose loaded)
    = [EmitterDisposable SigError; EmitterDisposable SigClose;
       EmitterDisposable SigPartialMessage].
Proof. split; reflexivity. Qed.

(** A listens, B writes [ping]: one call, to A's function, with [ping]. *)
Example scenario_listen_write :
  trace (run [Listen handlerA; Write ping] loaded)
  = [Delivered ElectronIpcMainChannel handlerA ping].
Proof. vm_compute. reflexivity. Qed.

(** A listens, A is disposed, B publishes and writes: the only calls are the
    four disposal actions, most recent first. *)
Example scenario_listen_dispose_write :
  trace (run [Listen handlerA; ReaderDispose;
              Publish ElectronIpcMainChannel ping; Write ping] loaded)
  = [Released (Unlisten 0 handlerA);
     Released (EmitterDisposable SigPartialMessage);
     Released (EmitterDisposable SigClose);
     Released (EmitterDisposable SigError)].
Proof. vm_compute. reflexivity. Qed.

(** Two listeners, one write: both are called, in registration order. *)
Example scenario_two_listeners :
  trace (run [Listen handlerA; Listen handlerB; Write ping] loaded)
  = [Delivered ElectronIpcMainChannel handlerA ping;
     Delivered ElectronIpcMainChannel handlerB ping].
Proof. vm_compute. reflexivity. Qed.

(** Why the statements above ask that the function is not in the listener
    array already: [ipcMain.on] keeps every instance, so a function given to
    [listen] twice is called twice by each write ... *)
Example scenario_listen_twice :
  observed ElectronIpcMainChannel handlerA
    (trace (run [Listen handlerA; Listen handlerA; Write ping] loaded))
  = [ping; ping].
Proof. vm_compute. reflexivity. Qed.

(** ... and the disposal takes out the instances [listen] added, not one
    that another party registered with [ipcMain] itself. *)
Example scenario_foreign_registration :
  listeners ElectronIpcMainChannel
    (run [Listen handlerC; WriterDispose] shared) = [handlerC]
  ∧ observed ElectronIpcMainChannel handlerC
      (trace (run [Listen handlerC; WriterDispose;
                   Publish ElectronIpcMainChannel ping] shared))
    = [ping].
Proof. split; vm_compute; reflexivity. Qed.

(** Subscribing to the three signals and disposing: nobody is called but
    the disposal actions, and the subscriber lists are emptied. *)
Example scenario_subscribe_dispose :
  let w := run [Subscribe SigError handlerA; Subscribe SigClose handlerB;
                Subscribe SigPartialMessage handlerC; ReaderDispose] loaded in
  fired (trace w) = []
  ∧ subscribers (errorEmitter w) = []
  ∧ torn_down (closeEmitter w) = true.
Proof. vm_compute. done. Qed.

(** Had the transport ever fired a signal, the subscribers would show in
    the trace. *)
Example scenario_fire :
  fired (trace (fire SigClose "bye"
                  (run [Subscribe SigClose handlerB] loaded)))
  = [(SigClose, handlerB, "bye")].
Proof. vm_compute. reflexivity. Qed.

(** The names of [gcc_and_tsc] as the schema lists them, whatever the array
    held before; and what is left when a call takes one argument only. *)
Example scenario_matcher_names :
  updateProblemMatcherNames id 1000 gcc_and_tsc ["$stale"]
  = Returned ["$gcc"; "$tsc"]
  ∧ updateProblemMatcherNames id 1 gcc_and_tsc ["$stale"] = RangeError [].
Proof. split; reflexivity. Qed.

(** A matcher without a name is listed as a lone dollar sign. *)
Example scenario_empty_matcher_name : matcherName "" = "$".
Proof. reflexivity. Qed.

(** ** Instances of the properties *)

Lemma not_elem_of_decide {A} `{!EqDecision A} (x : A) (l : list A) :
  bool_decide (x ∈ l) = false → x ∉ l.
Proof. intros Hb Hin. by rewrite bool_decide_eq_false in Hb. Qed.

(** Adapter A listens; B writes [ping]: A's function is called once, with
    [ping], other listeners and earlier traffic notwithstanding. *)
Lemma write_calls_listener_once_with_message_witness :
  let s' := run [Listen handlerB; Write pong; Publish "other" pong]
              (reader_listen reader handlerA shared) in
  observed ElectronIpcMainChannel handlerA
    (trace (writer_write writer ping s'))
  = observed ElectronIpcMainChannel handlerA (trace s') ++ [ping].
Proof.
  apply (write_calls_listener_once_with_message shared handlerA
           [Listen handlerB; Write pong; Publish "other" pong] ping).
  - reflexivity.
  - apply not_elem_of_decide. vm_compute. reflexivity.
  - repeat constructor. discriminate.
Defined.

Lemma writes_are_observed_in_order_witness :
  observed ElectronIpcMainChannel handlerA
    (trace (run (Write <$> [ping; pong; ping])
              (reader_listen reader handlerA shared)))
  = observed ElectronIpcMainChannel handlerA (trace shared)
    ++ [ping; pong; ping].
Proof.
  apply (writes_are_observed_in_order shared handlerA [ping; pong; ping]).
  - reflexivity.
  - apply not_elem_of_decide. vm_compute. reflexivity.
Defined.

Lemma listen_after_dispose_registers_nothing_witness :
  observed ElectronIpcMainChannel handlerA
    (trace (run [Publish ElectronIpcMainChannel ping; Write pong]
              (reader_listen reader handlerA
                 (run [Write ping] (reader_dispose reader loaded)))))
  = observed ElectronIpcMainChannel handlerA
      (trace (run [Write ping] (reader_dispose reader loaded))).
Proof.
  apply (listen_after_dispose_registers_nothing loaded [Write ping] handlerA
           [Publish ElectronIpcMainChannel ping; Write pong]).
  apply not_elem_of_decide. vm_compute. reflexivity.
Defined.

Lemma dispose_removes_the_listen_registration_witness :
  let registered := reader_listen reader handlerA shared in
  let s' := reader_dispose reader registered in
  listeners ElectronIpcMainChannel registered = [handlerC; handlerA]
  ∧ listeners ElectronIpcMainChannel s' = [handlerC]
  ∧ observed ElectronIpcMainChannel handlerA
      (trace (run [Publish ElectronIpcMainChannel ping] s'))
    = observed ElectronIpcMainChannel handlerA (trace shared).
Proof.
  destruct (dispose_removes_the_listen_registration shared handlerA
              [handlerC] ping [Publish ElectronIpcMainChannel ping])
    as (Hregistered & _ & Hforeign & _ & _ & _ & _ & Hsilent).
  - reflexivity.
  - apply not_elem_of_decide. vm_compute. reflexivity.
  - reflexivity.
  - split_and!; [exact Hregistered|exact Hforeign|exact Hsilent].
Defined.

Lemma write_fans_out_to_every_listener_witness :
  observed ElectronIpcMainChannel handlerA
    (trace (writer_write writer ping
              (reader_listen reader handlerB
                 (reader_listen reader handlerA loaded))))
  = observed ElectronIpcMainChannel handlerA (trace loaded) ++ [ping]
  ∧ observed ElectronIpcMainChannel handlerB
      (trace (writer_write writer ping
                (reader_listen reader handlerB
                   (reader_listen reader handlerA loaded))))
    = observed ElectronIpcMainChannel handlerB (trace loaded) ++ [ping]
  ∧ ∀ c,
      c ∈ listeners ElectronIpcMainChannel
            (reader_listen reader handlerB
               (reader_listen reader handlerA loaded)) →
      Delivered ElectronIpcMainChannel c ping
      ∈ trace (writer_write writer ping
                 (reader_listen reader handlerB
                    (reader_listen reader handlerA loaded))).
Proof.
  apply (write_fans_out_to_every_listener loaded handlerA handlerB ping).
  - reflexivity.
  - discriminate.
  - apply not_elem_of_decide. vm_compute. reflexivity.
  - apply not_elem_of_decide. vm_compute. reflexivity.
Defined.


Lemma write_calls_once_per_registration_witness :
  observed ElectronIpcMainChannel handlerA
    (trace (writer_write writer ping
              (run [Listen handlerA; Listen handlerA] loaded)))
  = [ping; ping].
Proof.
  etrans.
  - apply (write_calls_once_per_registration
             (run [Listen handlerA; Listen handlerA] loaded) handlerA ping).
    reflexivity.
  - vm_compute. reflexivity.
Defined.

Lemma transport_keeps_to_its_channel_witness :
  listeners "other"
    (run [Listen handlerA; Write ping; ReaderDispose] shared)
  = listeners "other" shared
  ∧ observed "other" handlerC
      (trace (run [Listen handlerA; Write ping; ReaderDispose] shared))
    = observed "other" handlerC (trace shared).
Proof.
  apply (transport_keeps_to_its_channel shared
           [Listen handlerA; Write ping; ReaderDispose] "other" handlerC).
  - discriminate.
  - discriminate.
  - discriminate.
  - repeat constructor; simpl; tauto.
Defined.

Lemma listen_does_not_replay_witness :
  observed ElectronIpcMainChannel handlerA
    (trace (reader_listen reader handlerA
              (run (Write <$> [ping; pong]) shared)))
  = observed ElectronIpcMainChannel handlerA (trace shared).
Proof.
  apply (listen_does_not_replay shared handlerA [ping; pong]).
  apply not_elem_of_decide. vm_compute. reflexivity.
Defined.

Lemma listeners_are_called_in_registration_order_witness :
  listeners ElectronIpcMainChannel
    (run (Listen <$> [handlerB; handlerA; handlerB]) shared)
  = listeners ElectronIpcMainChannel shared
    ++ [handlerB; handlerA; handlerB].
Proof.
  apply (listeners_are_called_in_registration_order shared
           [handlerB; handlerA; handlerB] ping).
  reflexivity.
Defined.

Lemma schema_is_registered_once_witness :
  ∃ st',
    updates id id map_update map_add (λ _, "schema") JNull
      [(["$gcc"], ["shell"]); (["$gcc"; "$tsc"], ["shell"; "process"])]
      {| inmemoryResources := ∅; jsonSchemaStore := [] |}
    = Some st'
    ∧ inmemoryResources st' !! taskSchemaId = Some "schema"
    ∧ jsonSchemaStore st'
      = [{| fileMatch := ["tasks.json"]; url := taskSchemaId |}].
Proof.
  destruct (schema_is_registered_once id id map_update map_add
              (λ _, "schema") JNull (λ uri r, r !! uri))
    with (runs := [(["$gcc"], ["shell"]);
                   (["$gcc"; "$tsc"], ["shell"; "process"])])
         (run := (["$gcc"; "$tsc"], ["shell"; "process"]))
         (st := {| inmemoryResources := (∅ : gmap string string);
                   jsonSchemaStore := [] |})
    as (st' & Hst' & Hres & Hstore).
  - intros uri content r. unfold map_update.
    destruct (r !! uri) as [old|] eqn:Hr; [|done].
    split; [by exists old|apply lookup_insert_eq].
  - intros uri content r Hr. unfold map_add. rewrite Hr.
    eexists. split; [done|apply lookup_insert_eq].
  - reflexivity.
  - exists st'. split_and!; [exact Hst'|exact Hres|exact Hstore].
Defined.
